(** * Easy Bake: the recursive inliner of [src/bake.ts]

    A shallow embedding of the [bake] function of the plugin and of the
    pieces of JavaScript it relies on (string slicing, the three
    line-shape regular expressions, the scan for hidden regions), followed
    by the properties of the baker that the specification states.

    Conventions.
    - JavaScript strings are [string]s; a character is one code unit.
    - JavaScript numbers that hold text offsets are [Z]; indices produced by
      a regular-expression scan are [nat] and are injected with [Z.of_nat].
    - A [TFile] is identified by its fields: the vault holds one file object
      per path, so object identity and structural equality coincide.
    - [async]/[await] is sequential here: [bake] awaits every call it makes.
      A rejected read is the result [Throw]; running out of recursion fuel
      is the result [OutOfFuel], which the termination theorem excludes. *)

From Stdlib Require Import ZArith Ascii String List Lia Bool Sorted.
From stdpp Require Import base gmap sets list strings.

Open Scope Z_scope.

(** ** JavaScript strings *)

Definition chars (s : string) : list ascii := list_ascii_of_string s.
Definition str (l : list ascii) : string := string_of_list_ascii l.

(** [String.prototype.substring]: both indices are clamped to
    [0 .. length] and swapped when the first exceeds the second. *)
Definition clampIndex (len : nat) (i : Z) : nat := Nat.min (Z.to_nat i) len.

Definition substring (s : string) (a b : Z) : string :=
  let len := String.length s in
  let a' := clampIndex len a in
  let b' := clampIndex len b in
  String.substring (Nat.min a' b') (Nat.max a' b' - Nat.min a' b') s.

(** [s.substring(a)]: the end index defaults to the length. *)
Definition substringFrom (s : string) (a : Z) : string :=
  substring s a (Z.of_nat (String.length s)).

Definition jsLength (s : string) : Z := Z.of_nat (String.length s).

(** Truthiness of a value of type [string | undefined | null]. *)
Definition truthy (o : option string) : bool :=
  match o with
  | Some s => negb (String.eqb s "")
  | None => false
  end.

(** [a || b] on such a value, with a string on the right. *)
Definition orElse (o : option string) (d : string) : string :=
  match o with
  | Some s => if String.eqb s "" then d else s
  | None => d
  end.

(** ** Regular expressions

    The fragment of JavaScript regular expressions that the three
    line-shape patterns use: anchors without the [m] flag, character
    classes, greedy repetition of a class, sequence, ordered alternation
    and one capture group.  The matcher is the usual backtracking one, in
    continuation-passing style, so priorities (greedy first, left
    alternative first) are those of JavaScript. *)

Inductive regex : Type :=
| Eps
| Bol
| Eol
| Cls (p : ascii -> bool)
| Star (p : ascii -> bool)
| Seq (r1 r2 : regex)
| Alt (r1 r2 : regex)
| Grp (r : regex).

Definition Plus (p : ascii -> bool) : regex := Seq (Cls p) (Star p).
Definition Opt (r : regex) : regex := Alt r Eps.

Section Matcher.
Context {A : Type}.

(** Continuations receive the text consumed so far, the text that
    remains and the current capture of group 1. *)
Definition cont : Type :=
  list ascii -> list ascii -> option (list ascii) -> option A.

Fixpoint starMatch (p : ascii -> bool) (pre rest : list ascii)
    (k : list ascii -> list ascii -> option A) : option A :=
  match rest with
  | c :: rest' =>
      if p c then
        match starMatch p (pre ++ [c]) rest' k with
        | Some x => Some x
        | None => k pre rest
        end
      else k pre rest
  | [] => k pre rest
  end.

Fixpoint rmatch (r : regex) (pre rest : list ascii)
    (cap : option (list ascii)) (k : cont) : option A :=
  match r with
  | Eps => k pre rest cap
  | Bol => match pre with [] => k pre rest cap | _ :: _ => None end
  | Eol => match rest with [] => k pre rest cap | _ :: _ => None end
  | Cls p =>
      match rest with
      | c :: rest' => if p c then k (pre ++ [c]) rest' cap else None
      | [] => None
      end
  | Star p => starMatch p pre rest (fun pre' rest' => k pre' rest' cap)
  | Seq r1 r2 =>
      rmatch r1 pre rest cap (fun pre' rest' cap' => rmatch r2 pre' rest' cap' k)
  | Alt r1 r2 =>
      match rmatch r1 pre rest cap k with
      | Some x => Some x
      | None => rmatch r2 pre rest cap k
      end
  | Grp r1 =>
      rmatch r1 pre rest cap
        (fun pre' rest' _ => k pre' rest' (Some (drop (length pre) pre')))
  end.
End Matcher.

(** A match attempt at every start position, leftmost first; the result is
    the capture of group 1 of the first match. *)
Fixpoint searchFrom (r : regex) (pre rest : list ascii)
    : option (option (list ascii)) :=
  match rmatch r pre rest None (fun _ _ cap => Some cap) with
  | Some cap => Some cap
  | None =>
      match rest with
      | [] => None
      | c :: rest' => searchFrom r (pre ++ [c]) rest'
      end
  end.

(** [s.match(re)] for a pattern without the [g] flag. *)
Definition reMatch (r : regex) (s : string) : option (option (list ascii)) :=
  searchFrom r [] (chars s).

(** [re.test(s)]. *)
Definition reTest (r : regex) (s : string) : bool :=
  match reMatch r s with Some _ => true | None => false end.

(** [m[1]] of a successful match. *)
Definition group1 (m : option (list ascii)) : string :=
  match m with Some w => str w | None => "" end.

Definition isChar (c : ascii) : ascii -> bool := fun x => Ascii.eqb x c.
Definition oneOf (l : list ascii) : ascii -> bool :=
  fun x => existsb (Ascii.eqb x) l.
Definition isDigit (x : ascii) : bool :=
  (48 <=? nat_of_ascii x)%nat && (nat_of_ascii x <=? 57)%nat.

Definition LF : ascii := ascii_of_nat 10.
Definition CR : ascii := ascii_of_nat 13.
Definition TAB : ascii := ascii_of_nat 9.
Definition SP : ascii := " "%char.

Definition isSpaceTab : ascii -> bool := oneOf [SP; TAB].
Definition isBullet : ascii -> bool := oneOf ["-"%char; "*"%char; "+"%char].
Definition isDotParen : ascii -> bool := oneOf ["."%char; ")"%char].

(** [lineStartRE]: start of input or a line feed, then spaces only, up to
    the end of input. *)
Definition lineStartRE : regex :=
  Seq (Alt Bol (Cls (isChar LF))) (Seq (Star (isChar SP)) Eol).

(** A bullet, or digits followed by a dot or a closing parenthesis. *)
Definition markerRE : regex :=
  Alt (Cls isBullet) (Seq (Plus isDigit) (Cls isDotParen)).

(** [listLineStartRE]: start of input or a line feed; group 1, a run of
    spaces and tabs; a bullet (one of - * +) or digits followed by a dot or
    a closing parenthesis; one or more spaces; end of input. *)
Definition listLineStartRE : regex :=
  Seq (Alt Bol (Cls (isChar LF)))
    (Seq (Grp (Star isSpaceTab))
       (Seq markerRE (Seq (Plus (isChar SP)) Eol))).

(** [lineEndRE]: from the start of input, spaces only, then an optional
    carriage return and a line feed, or the end of input. *)
Definition lineEndRE : regex :=
  Seq Bol
    (Seq (Star (isChar SP))
       (Alt (Seq (Opt (Cls (isChar CR))) (Cls (isChar LF))) Eol)).

Definition nl : string := String LF "".

(** *** What a pattern matches

    [lang r pre w post c c']: pattern [r] matches the word [w] when [pre]
    precedes it and [post] follows it in the input; [c] is the capture of
    group 1 before the match and [c'] the capture after it. *)
Inductive lang : regex -> list ascii -> list ascii -> list ascii ->
                 option (list ascii) -> option (list ascii) -> Prop :=
| L_Eps pre post c : lang Eps pre [] post c c
| L_Bol post c : lang Bol [] [] post c c
| L_Eol pre c : lang Eol pre [] [] c c
| L_Cls p pre x post c : p x = true -> lang (Cls p) pre [x] post c c
| L_Star p pre w post c :
    Forall (fun x => p x = true) w -> lang (Star p) pre w post c c
| L_Seq r1 r2 pre w1 w2 post c c1 c2 :
    lang r1 pre w1 (w2 ++ post) c c1 ->
    lang r2 (pre ++ w1) w2 post c1 c2 ->
    lang (Seq r1 r2) pre (w1 ++ w2) post c c2
| L_AltL r1 r2 pre w post c c' :
    lang r1 pre w post c c' -> lang (Alt r1 r2) pre w post c c'
| L_AltR r1 r2 pre w post c c' :
    lang r2 pre w post c c' -> lang (Alt r1 r2) pre w post c c'
| L_Grp r pre w post c c1 :
    lang r pre w post c c1 -> lang (Grp r) pre w post c (Some w).

(** *** The three line shapes, in words *)

Definition allSpaces (l : list ascii) : Prop := Forall (fun c => c = SP) l.

Definition allBlanks (l : list ascii) : Prop :=
  Forall (fun c => c = SP \/ c = TAB) l.

(** Nothing, or text that ends with a line feed. *)
Definition atLineStart (l : list ascii) : Prop :=
  l = [] \/ exists l', l = l' ++ [LF].

(** The text is a line start followed by spaces only. *)
Definition endsAtLineStart (before : string) : Prop :=
  exists p sp, chars before = p ++ sp /\ atLineStart p /\ allSpaces sp.

(** A bullet, or digits followed by a dot or a closing parenthesis. *)
Definition isMarker (m : list ascii) : Prop :=
  (exists c, m = [c] /\ (c = "-"%char \/ c = "*"%char \/ c = "+"%char))
  \/ (exists ds c, m = ds ++ [c] /\ ds <> []
                  /\ Forall (fun d => isDigit d = true) ds
                  /\ (c = "."%char \/ c = ")"%char)).

(** The text is a line start, blanks, a marker and at least one space. *)
Definition listItemStart (before : string) : Prop :=
  exists p ws m sp,
    chars before = p ++ ws ++ m ++ sp
    /\ atLineStart p /\ allBlanks ws /\ isMarker m
    /\ sp <> [] /\ allSpaces sp.

(** Spaces only, up to a line feed, a carriage return and a line feed, or
    the end of the text. *)
Definition endOfLine (after : string) : Prop :=
  exists sp rest,
    chars after = sp ++ rest /\ allSpaces sp
    /\ (rest = [] \/ (exists r, rest = LF :: r) \/ (exists r, rest = CR :: LF :: r)).

(** ** Data model *)

(** The fields of a [TFile] that [bake] reads. *)
Record TFile : Type := mkTFile { path : string; extension : string }.

#[global] Instance TFile_eq_dec : EqDecision TFile.
Proof. solve_decision. Defined.

#[global] Instance TFile_countable : Countable TFile :=
  inj_countable' (fun f => (path f, extension f))
    (fun p => mkTFile (fst p) (snd p)) (fun f => match f with mkTFile _ _ => eq_refl end).

(** A link or an embed of the metadata cache: [link], [displayText] and
    the offsets [position.start.offset], [position.end.offset]. *)
Record ReferenceCache : Type := mkRef {
  link : string;
  displayText : option string;
  startOffset : Z;
  endOffset : Z
}.

Record BakeSettings : Type := mkSettings {
  bakeHidden : bool;
  bakeLinks : bool;
  bakeEmbeds : bool;
  bakeInList : bool;
  convertFileLinks : bool
}.

(** A hidden region, in offsets of the text as read. *)
Record Region : Type := mkRegion { regionStart : Z; regionEnd : Z }.

(** What [bake] uses of the [obsidian] package and of the JavaScript
    runtime: these are outside the repository and stay abstract. *)
Class Obsidian : Type := {
  CachedMetadata : Type;
  SubpathResult : Type;
  links : CachedMetadata -> option (list ReferenceCache);
  embeds : CachedMetadata -> option (list ReferenceCache);
  parseLinktext : string -> string * string;
  resolveSubpath : CachedMetadata -> string -> option SubpathResult;
  encodeURI : string -> string;
  isWin : bool
}.

(** The helpers that [bake] imports from [./util]. *)
Class Util `{Obsidian} : Type := {
  applyIndent : string -> string -> string;
  extractSubpath : string -> SubpathResult -> CachedMetadata -> string;
  sanitizeBakedContent : string -> string;
  stripFirstBullet : string -> string
}.

(** The [App]: vault, metadata cache and adapter.  [cachedRead] is [None]
    when the read is rejected; [getFullPath] is [None] when the adapter has
    no such method. *)
Record App `{Obsidian} : Type := mkApp {
  cachedRead : TFile -> option string;
  getFileCache : TFile -> option CachedMetadata;
  getFirstLinkpathDest : string -> string -> option TFile;
  getFullPath : option (string -> string)
}.

(** ** Results *)

Inductive result (A : Type) : Type :=
| Ret (a : A)
| Throw (f : TFile)
| OutOfFuel.

Arguments Ret {A} a.
Arguments Throw {A} f.
Arguments OutOfFuel {A}.

Definition bind {A B : Type} (m : result A) (k : A -> result B) : result B :=
  match m with
  | Ret a => k a
  | Throw f => Throw f
  | OutOfFuel => OutOfFuel
  end.

Notation "'let*' x ':=' m 'in' k" := (bind m (fun x => k))
  (at level 10, x name, m at level 100, k at level 200).

(** [settles a b]: once [a] is a result (normal or thrown), [b] is that
    same result. *)
Definition settles {A : Type} (a b : result A) : Prop :=
  a <> OutOfFuel -> b = a.

(** ** Hidden regions *)

Definition hiddenStartRE : string := "%%hidden%%".
Definition hiddenEndRE : string := "%%/hidden%%".

(** [re.exec(text)] for a literal pattern with the [g] flag: the index of
    the first occurrence at or after [lastIndex]. *)
Definition execFrom (pattern text : string) (lastIndex : nat) : option nat :=
  String.index lastIndex pattern text.

(** The [while] loop that finds the regions.  After a start marker is
    matched at [start], the [lastIndex] of [hiddenStartRE] is [start + 10],
    and that of [hiddenEndRE] is set to [start + 10] as well. *)
Fixpoint scanHidden (fuel : nat) (text : string) (lastIndex : nat)
    : option (list Region) :=
  match fuel with
  | O => None
  | S fuel' =>
      match execFrom hiddenStartRE text lastIndex with
      | None => Some []
      | Some start =>
          let found :=
            match execFrom hiddenEndRE text (start + 10) with
            | Some endIndex =>
                [mkRegion (Z.of_nat start) (Z.of_nat endIndex + 12)]
            | None => []
            end in
          match scanHidden fuel' text (start + 10) with
          | Some more => Some (found ++ more)
          | None => None
          end
      end
  end.

Definition findHiddenRegions (text : string) : option (list Region) :=
  scanHidden (S (String.length text)) text 0.

Definition removeRegion (region : Region) (text : string) : string :=
  substring text 0 (regionStart region) +:+ substringFrom text (regionEnd region).

(** The [for] loop that removes the regions, the last one first. *)
Definition removeHidden (regions : list Region) (text : string) : string :=
  fold_right removeRegion text regions.

(** ** Offset remapping *)

(** The inner [for ... of hiddenRegions] loop with its [break]. *)
Fixpoint hiddenOffset (regions : list Region) (adjustedStart offset : Z) : Z :=
  match regions with
  | [] => offset
  | region :: more =>
      if regionStart region <? adjustedStart
      then hiddenOffset more adjustedStart (offset + (regionEnd region - regionStart region))
      else offset
  end.

(** The adjustment in the words of the specification: the regions up to,
    but not including, the first one whose start is not before the
    reference, and the sum of their lengths. *)
Fixpoint specPreceding (regions : list Region) (refStart : Z) : list Region :=
  match regions with
  | [] => []
  | region :: more =>
      if regionStart region <? refStart
      then region :: specPreceding more refStart
      else []
  end.

Definition regionLength (region : Region) : Z :=
  regionEnd region - regionStart region.

Definition specAdjustment (regions : list Region) (refStart : Z) : Z :=
  foldr (fun region acc => regionLength region + acc) 0
    (specPreceding regions refStart).

(** Regions listed by strictly ascending start. *)
Definition ascendingStarts (regions : list Region) : Prop :=
  StronglySorted (fun a b => regionStart a < regionStart b) regions.

(** No region reaches into a later one. *)
Definition disjointRegions (regions : list Region) : Prop :=
  forall (i j : nat) (a b : Region),
    (i < j)%nat -> regions !! i = Some a -> regions !! j = Some b ->
    regionEnd a <= regionStart b.

(** [hiddenRegions.some(...)] of the skip test. *)
Definition withinHidden (regions : list Region) (target : ReferenceCache) : bool :=
  existsb (fun region =>
             (regionStart region <=? startOffset target)
             && (endOffset target <=? regionEnd region)) regions.

(** [targets.sort((a, b) => a.position.start.offset - b.position.start.offset)]:
    a stable sort. *)
Fixpoint insertTarget (t : ReferenceCache) (l : list ReferenceCache)
    : list ReferenceCache :=
  match l with
  | [] => [t]
  | u :: l' =>
      if startOffset t <=? startOffset u then t :: l
      else u :: insertTarget t l'
  end.

Definition sortTargets (l : list ReferenceCache) : list ReferenceCache :=
  fold_right insertTarget [] l.

(** ** The baker *)

Section Bake.
Context `{U : Util} (app : App) (settings : BakeSettings).

(** The local variables [text] and [posOffset] of the loop over the
    targets. *)
Record LoopState : Type := mkState { text : string; posOffset : Z }.

(** [adjustedStart] and [adjustedEnd] of one target. *)
Definition adjust (hiddenRegions : list Region) (target : ReferenceCache)
    : Z * Z :=
  let adjustedStart := startOffset target in
  let adjustedEnd := endOffset target in
  if negb (bakeHidden settings) then
    let offset := hiddenOffset hiddenRegions adjustedStart 0 in
    (adjustedStart - offset, adjustedEnd - offset)
  else (adjustedStart, adjustedEnd).

(** [replaceTarget]: the closure that rewrites [text] and [posOffset]. *)
Definition replaceTarget (before after : string) (prevLen : Z)
    (st : LoopState) (replacement : string) : LoopState :=
  {| text := before +:+ replacement +:+ after;
     posOffset := posOffset st + (jsLength replacement - prevLen) |}.

Definition isInline (listMatch : option (option (list ascii)))
    (before after : string) : bool :=
  negb (match listMatch with Some _ => true | None => false end
        || reTest lineStartRE before)
  || negb (reTest lineEndRE after).

(** [settings.bakeInList ? before.match(listLineStartRE) : null]. *)
Definition listMatchOf (before : string) : option (option (list ascii)) :=
  if bakeInList settings then reMatch listLineStartRE before else None.

(** One iteration of [for (const target of targets)].  [recurse] stands
    for the recursive call [bake(app, linkedFile, subpath, newAncestors,
    settings)]; a [continue] is [Ret st]. *)
Definition processTarget (recurse : TFile -> string -> result string)
    (file : TFile) (newAncestors : gset TFile) (hiddenRegions : list Region)
    (st : LoopState) (target : ReferenceCache) : result LoopState :=
  let '(adjustedStart, adjustedEnd) := adjust hiddenRegions target in
  if negb (bakeHidden settings) && withinHidden hiddenRegions target
  then Ret st
  else
    let start := adjustedStart + posOffset st in
    let end_ := adjustedEnd + posOffset st in
    let prevLen := end_ - start in
    let before := substring (text st) 0 start in
    let after := substringFrom (text st) end_ in
    let '(path_, subpath) := parseLinktext (link target) in
    match getFirstLinkpathDest app path_ (path file) with
    | None => Ret st
    | Some linkedFile =>
        let listMatch := listMatchOf before in
        let inline := isInline listMatch before after in
        let isMarkdownFile := String.eqb (extension linkedFile) "md" in
        if negb isMarkdownFile then
          if negb (convertFileLinks settings) then Ret st
          else
            match getFullPath app with
            | None => Ret st
            | Some fullPathOf =>
                let fullPath := fullPathOf (path linkedFile) in
                let protocol := if isWin then "file:///" else "file://" in
                Ret (replaceTarget before after prevLen st
                       ("![](" +:+ protocol +:+ encodeURI fullPath +:+ ")"))
            end
        else if bool_decide (linkedFile ∈ newAncestors) || inline then
          Ret (replaceTarget before after prevLen st
                 (orElse (displayText target) path_))
        else
          let* r := recurse linkedFile subpath in
          let baked := sanitizeBakedContent r in
          Ret (replaceTarget before after prevLen st
                 (match listMatch with
                  | Some m => applyIndent (stripFirstBullet baked) (group1 m)
                  | None => baked
                  end))
    end.

(** The live span of a target and the text around it, as the loop body
    computes them from the state. *)
Definition liveStart (hiddenRegions : list Region) (st : LoopState)
    (target : ReferenceCache) : Z :=
  fst (adjust hiddenRegions target) + posOffset st.

Definition liveEnd (hiddenRegions : list Region) (st : LoopState)
    (target : ReferenceCache) : Z :=
  snd (adjust hiddenRegions target) + posOffset st.

Definition beforeOf (hiddenRegions : list Region) (st : LoopState)
    (target : ReferenceCache) : string :=
  substring (text st) 0 (liveStart hiddenRegions st target).

Definition afterOf (hiddenRegions : list Region) (st : LoopState)
    (target : ReferenceCache) : string :=
  substringFrom (text st) (liveEnd hiddenRegions st target).

(** The test of the [continue] for a reference inside a hidden region. *)
Definition skippedAsHidden (hiddenRegions : list Region)
    (target : ReferenceCache) : bool :=
  negb (bakeHidden settings) && withinHidden hiddenRegions target.

(** The state after [replaceTarget(replacement)] for a target. *)
Definition replaced (hiddenRegions : list Region) (st : LoopState)
    (target : ReferenceCache) (replacement : string) : LoopState :=
  {| text := beforeOf hiddenRegions st target +:+ replacement
             +:+ afterOf hiddenRegions st target;
     posOffset := posOffset st
                  + (jsLength replacement
                     - (liveEnd hiddenRegions st target
                        - liveStart hiddenRegions st target)) |}.

(** The whole loop. *)
Fixpoint processTargets (recurse : TFile -> string -> result string)
    (file : TFile) (newAncestors : gset TFile) (hiddenRegions : list Region)
    (targets : list ReferenceCache) (st : LoopState) : result LoopState :=
  match targets with
  | [] => Ret st
  | target :: more =>
      let* st' := processTarget recurse file newAncestors hiddenRegions st target in
      processTargets recurse file newAncestors hiddenRegions more st'
  end.

(** The hidden-region filter at the head of [bake]: the regions found
    and the text without them. *)
Definition hiddenFilter (text0 : string) : result (list Region * string) :=
  if negb (bakeHidden settings) then
    match findHiddenRegions text0 with
    | Some hiddenRegions => Ret (hiddenRegions, removeHidden hiddenRegions text0)
    | None => OutOfFuel
    end
  else Ret ([], text0).

Definition collectTargets (cache : CachedMetadata) : list ReferenceCache :=
  let links_ := if bakeLinks settings then default [] (links cache) else [] in
  let embeds_ := if bakeEmbeds settings then default [] (embeds cache) else [] in
  links_ ++ embeds_.

(** The body of [bake], with [recurse] for the function itself. *)
Definition bakeBody
    (recurse : TFile -> option string -> gset TFile -> result string)
    (file : TFile) (subpath : option string) (ancestors : gset TFile)
    : result string :=
  match cachedRead app file with
  | None => Throw file
  | Some text0 =>
      let cache := getFileCache app file in
      let* filtered := hiddenFilter text0 in
      let '(hiddenRegions, text1) := filtered in
      match cache with
      | None => Ret text1
      | Some cache =>
          let resolvedSubpath :=
            match subpath with
            | Some sp => if truthy subpath then resolveSubpath cache sp else None
            | None => None
            end in
          let text2 :=
            match resolvedSubpath with
            | Some r => extractSubpath text1 r cache
            | None => text1
            end in
          let targets := collectTargets cache in
          match targets with
          | [] => Ret text2
          | _ :: _ =>
              let sorted := sortTargets targets in
              let newAncestors := ancestors ∪ {[file]} in
              let* st := processTargets
                           (fun linkedFile sp => recurse linkedFile (Some sp) newAncestors)
                           file newAncestors hiddenRegions sorted
                           (mkState text2 0) in
              Ret (text st)
          end
      end
  end.

Fixpoint bake (fuel : nat) (file : TFile) (subpath : option string)
    (ancestors : gset TFile) : result string :=
  match fuel with
  | O => OutOfFuel
  | S fuel' => bakeBody (bake fuel') file subpath ancestors
  end.
End Bake.

(** ** The helpers of [./util], from the specification *)

(** The marker of a list item, as the specification describes it: optional
    leading blanks, a bullet or digits with a dot or a closing parenthesis,
    then at least one space. *)
Definition listMarkerRE : regex :=
  Seq Bol
    (Seq (Star isSpaceTab) (Seq markerRE (Plus (isChar SP)))).

(** Modelled from the spec: [stripFirstBullet] of [src/util.ts], which is
    not among the sources.  The specification says it strips the first
    bullet or number marker from the baked content; text that does not
    begin with a marker is left as it is. *)
Definition specStripFirstBullet (s : string) : string :=
  match rmatch listMarkerRE [] (chars s) None (fun _ rest _ => Some rest) with
  | Some rest => str rest
  | None => s
  end.

Fixpoint indentAfterLF (indent : list ascii) (l : list ascii) : list ascii :=
  match l with
  | [] => []
  | c :: l' =>
      if Ascii.eqb c LF then c :: indent ++ indentAfterLF indent l'
      else c :: indentAfterLF indent l'
  end.

(** Modelled from the spec: [applyIndent] of [src/util.ts], which is not
    among the sources.  The specification says the baked content is
    re-indented by the captured indent string, the first line joining the
    bullet that is already there and every later line starting with the
    indent. *)
Definition specApplyIndent (s indent : string) : string :=
  str (indentAfterLF (chars indent) (chars s)).

(** ** A small vault for the examples *)

Record SimpleCache : Type := mkCache {
  cacheLinks : option (list ReferenceCache);
  cacheEmbeds : option (list ReferenceCache)
}.

Fixpoint splitAtHash (l : list ascii) : list ascii * list ascii :=
  match l with
  | [] => ([], [])
  | c :: l' =>
      if Ascii.eqb c "#"%char then ([], l)
      else let '(p, s) := splitAtHash l' in (c :: p, s)
  end.

(** [parseLinktext] of the examples: the path is the text before the first
    [#], the subpath the rest. *)
Definition splitLinktext (s : string) : string * string :=
  let '(p, sp) := splitAtHash (chars s) in (str p, str sp).

#[local] Instance exampleObsidian : Obsidian := {|
  CachedMetadata := SimpleCache;
  SubpathResult := Empty_set;
  links := cacheLinks;
  embeds := cacheEmbeds;
  parseLinktext := splitLinktext;
  resolveSubpath := fun _ _ => None;
  encodeURI := fun s => s;
  isWin := false
|}.

(** The helpers of the examples.  Modelled from the spec:
    [sanitizeBakedContent] and [extractSubpath] of [src/util.ts], which are
    not among the sources; the texts of the examples hold nothing to strip
    and no subpath is resolved, so both leave the text as it is. *)
#[local] Instance exampleUtil : Util := {|
  applyIndent := specApplyIndent;
  extractSubpath := fun s _ _ => s;
  sanitizeBakedContent := fun s => s;
  stripFirstBullet := specStripFirstBullet
|}.

Definition mdFile (name : string) : TFile := mkTFile (name +:+ ".md") "md".

(** Link paths resolve to the note of that name, when the vault has it. *)
Definition resolveIn (vault : list (string * (string * option SimpleCache)))
    (linkpath sourcePath : string) : option TFile :=
  match list_find (fun e => String.eqb (fst e) linkpath) vault with
  | Some _ => Some (mdFile linkpath)
  | None => None
  end.

Definition readIn (vault : list (string * (string * option SimpleCache)))
    (f : TFile) : option (string * option SimpleCache) :=
  match list_find (fun e => bool_decide (mdFile (fst e) = f)) vault with
  | Some (_, e) => Some (snd e)
  | None => None
  end.

Definition vaultApp (vault : list (string * (string * option SimpleCache)))
    : App := {|
  cachedRead := fun f => fst <$> readIn vault f;
  getFileCache := fun f => readIn vault f ≫= snd;
  getFirstLinkpathDest := resolveIn vault;
  getFullPath := None
|}.

Definition allOn : BakeSettings := mkSettings false true true true true.

(** The text of the hidden-region example of the specification. *)
Definition hiddenExample : string := "A%%hidden%%B%%/hidden%%C".

Definition hiddenVault : list (string * (string * option SimpleCache)) :=
  [("Host", (hiddenExample, Some (mkCache None None)))].

(** A start marker inside an open region. *)
Definition nestedExample : string := "%%hidden%%a%%hidden%%b%%/hidden%%cd".

(** The list item of the specification: the link [[Note]] spans the
    offsets 2 to 10. *)
Definition listVault : list (string * (string * option SimpleCache)) :=
  [("Host", ("- [[Note]]", Some (mkCache (Some [mkRef "Note" (Some "Note") 2 10]) None)));
   ("Note", ("Line1" +:+ nl +:+ "Line2", Some (mkCache None None)))].

(** Two notes that embed each other, each embed alone on its line. *)
Definition cycleVault : list (string * (string * option SimpleCache)) :=
  [("X", ("![[Y]]", Some (mkCache None (Some [mkRef "Y" (Some "Y") 0 6]))));
   ("Y", ("y" +:+ nl +:+ "![[X]]", Some (mkCache None (Some [mkRef "X" (Some "X") 2 8]))))].

Definition nestedVault : list (string * (string * option SimpleCache)) :=
  [("Host", (nestedExample, Some (mkCache None None)))].

(** Two regions one after the other, and a start marker without an end
    marker that begins with the last characters of an end marker. *)
Definition adjacentExample : string :=
  "%%hidden%%x%%/hidden%%%%hidden%%y%%/hidden%%z".

Definition danglingExample : string := "%%hidden%%%%/hidden%%hidden%%".

(** The same list item, two columns in. *)
Definition indentedListVault : list (string * (string * option SimpleCache)) :=
  [("Host", ("  - [[Note]]", Some (mkCache (Some [mkRef "Note" (Some "Note") 4 12]) None)));
   ("Note", ("Line1" +:+ nl +:+ "Line2", Some (mkCache None None)))].

(** A link in the middle of a line whose display text is the empty
    string. *)
Definition emptyDisplayRef : ReferenceCache := mkRef "Note" (Some "") 4 12.

Definition inlineVault : list (string * (string * option SimpleCache)) :=
  [("Host", ("See [[Note]] here.", Some (mkCache (Some [emptyDisplayRef]) None)));
   ("Note", ("n", Some (mkCache None None)))].

Definition inlineState : LoopState := mkState "See [[Note]] here." 0.

(** A link to a note that no vault of the examples holds. *)
Definition missingRef : ReferenceCache := mkRef "Nowhere" None 0 11.

(** The documents of a vault. *)
Definition vaultDocuments (vault : list (string * (string * option SimpleCache)))
    : gset TFile :=
  list_to_set ((fun e => mdFile (fst e)) <$> vault).

(** A note that the metadata cache does not know. *)
Definition rawVault : list (string * (string * option SimpleCache)) :=
  [("Raw", (hiddenExample, None))].

(** The letter between the markers of [hiddenExample], as a reference. *)
Definition hiddenRef : ReferenceCache := mkRef "B" None 11 12.

Definition missingState : LoopState := mkState "[[Nowhere]]" 0.

(** The embed of X inside Y, met while X is being baked. *)
Definition backRef : ReferenceCache := mkRef "X" (Some "X") 2 8.

Definition backState : LoopState := mkState ("y" +:+ nl +:+ "![[X]]") 0.

(** ** More examples *)

(** Regions that follow one another without touching. *)
Definition chainedRegions (regions : list Region) : Prop :=
  StronglySorted (fun a b => regionEnd a <= regionStart b) regions.

(** A vault with one note and one picture; the adapter knows full paths. *)
Definition pictureFile : TFile := mkTFile "pic.png" "png".

Definition pictureApp : App := {|
  cachedRead := fun f =>
    if bool_decide (f = mdFile "Host") then Some "![[pic.png]]" else None;
  getFileCache := fun f =>
    if bool_decide (f = mdFile "Host")
    then Some (mkCache None (Some [mkRef "pic.png" None 0 12]))
    else None;
  getFirstLinkpathDest := fun linkpath _ =>
    if String.eqb linkpath "pic.png" then Some pictureFile else None;
  getFullPath := Some (fun p => "/vault/" +:+ p)
|}.

Definition pictureRef : ReferenceCache := mkRef "pic.png" None 0 12.

Definition pictureState : LoopState := mkState "![[pic.png]]" 0.

(** The embed of Y in X of [cycleVault], alone on its line. *)
Definition embedRef : ReferenceCache := mkRef "Y" (Some "Y") 0 6.

Definition embedState : LoopState := mkState "![[Y]]" 0.

(** Two links on one line. *)
Definition twoLinksState : LoopState := mkState "a [[Note]] b [[Note]] c" 0.

Definition firstLink : ReferenceCache := mkRef "Note" (Some "N") 2 10.

Definition secondLink : ReferenceCache := mkRef "Note" (Some "N") 13 21.

Definition twoLinksVault : list (string * (string * option SimpleCache)) :=
  [("Host", ("a [[Note]] b [[Note]] c",
             Some (mkCache (Some [firstLink; secondLink]) None)));
   ("Note", ("n", Some (mkCache None None)))].

(** A text with one hidden region and a link after it. *)
Definition afterHiddenText : string := "%%hidden%%x%%/hidden%% and [[Note]]".

Definition afterHiddenRef : ReferenceCache := mkRef "Note" None 27 35.

(** Targets listed by ascending start offset. *)
Definition ascendingTargets (l : list ReferenceCache) : Prop :=
  StronglySorted (fun a b => startOffset a <= startOffset b) l.

(** A vault whose host embeds a note that cannot be read. *)
Definition brokenApp : App := {|
  cachedRead := fun f =>
    if bool_decide (f = mdFile "Host") then Some "![[Gone]]" else None;
  getFileCache := fun f =>
    if bool_decide (f = mdFile "Host")
    then Some (mkCache None (Some [mkRef "Gone" None 0 9]))
    else None;
  getFirstLinkpathDest := fun linkpath _ =>
    if String.eqb linkpath "Gone" then Some (mdFile "Gone") else None;
  getFullPath := None
|}.

Definition goneRef : ReferenceCache := mkRef "Gone" None 0 9.

Definition goneState : LoopState := mkState "![[Gone]]" 0.

(** A note that links to itself in the middle of a line. *)
Definition selfRef : ReferenceCache := mkRef "Self" None 3 11.

Definition selfVault : list (string * (string * option SimpleCache)) :=
  [("Self", ("me [[Self]].", Some (mkCache (Some [selfRef]) None)))].

Definition selfState : LoopState := mkState "me [[Self]]." 0.

(** A note whose only link leads nowhere. *)
Definition nowhereVault : list (string * (string * option SimpleCache)) :=
  [("Host", ("[[Nowhere]]", Some (mkCache (Some [missingRef]) None)))].

(** A start marker that is never closed. *)
Definition openExample : string := "a %%hidden%% b".

(** Everything on but the conversion of file links. *)
Definition noConvert : BakeSettings := mkSettings false true true true false.

(** * Properties *)

#[local] Set Warnings "-clear-no-such-hyp".

(** ** String slicing and the regular expressions on examples *)

Example substring_ex1 : substring "abcdef" 0 2 = "ab".
Proof. reflexivity. Qed.

Example substring_clamps : substring "abcdef" (-3) 99 = "abcdef".
Proof. reflexivity. Qed.

Example substring_swaps : substring "abcdef" 4 1 = "bcd".
Proof. reflexivity. Qed.

Example substringFrom_ex1 : substringFrom "abcdef" 4 = "ef".
Proof. reflexivity. Qed.

Example lineStart_ex1 : reTest lineStartRE ("abc" +:+ nl +:+ "  ") = true.
Proof. reflexivity. Qed.

Example lineStart_ex2 : reTest lineStartRE "abc " = false.
Proof. reflexivity. Qed.

Example listLineStart_ex1 :
  reMatch listLineStartRE ("x" +:+ nl +:+ "  12) ") = Some (Some (chars "  ")).
Proof. reflexivity. Qed.

Example lineEnd_ex1 : reTest lineEndRE "  " = true.
Proof. reflexivity. Qed.


(** ** The matcher against the meaning of patterns *)

Lemma starMatch_sound {A : Type} (p : ascii -> bool) (rest pre : list ascii)
    (k : list ascii -> list ascii -> option A) (x : A) :
  starMatch p pre rest k = Some x ->
  exists w post,
    rest = w ++ post /\ Forall (fun c => p c = true) w /\ k (pre ++ w) post = Some x.
Proof.
  revert pre. induction rest as [|c rest IH]; intros pre Hm; simpl in Hm.
  - exists [], []. simpl; rewrite ?app_nil_r. repeat split; auto.
  - destruct (p c) eqn:Hp.
    + destruct (starMatch p (pre ++ [c]) rest k) as [y|] eqn:Hs.
      * inversion Hm; subst y. apply IH in Hs as (w & post & -> & Hw & Hk).
        exists (c :: w), post. rewrite <- app_assoc in Hk. repeat split; auto.
      * exists [], (c :: rest). simpl; rewrite ?app_nil_r. repeat split; auto.
    + exists [], (c :: rest). simpl; rewrite ?app_nil_r. repeat split; auto.
Qed.

Lemma starMatch_complete {A : Type} (p : ascii -> bool) (w pre post : list ascii)
    (k : list ascii -> list ascii -> option A) (x : A) :
  Forall (fun c => p c = true) w ->
  k (pre ++ w) post = Some x ->
  exists y, starMatch p pre (w ++ post) k = Some y.
Proof.
  revert pre. induction w as [|c w IH]; intros pre Hw Hk.
  - rewrite app_nil_r in Hk. simpl. destruct post as [|d post]; simpl; eauto.
    destruct (p d); eauto.
    destruct (starMatch p (pre ++ [d]) post k); eauto.
  - inversion Hw as [|? ? Hc Hw']; subst. simpl. rewrite Hc.
    destruct (IH (pre ++ [c]) Hw') as [y Hy].
    + rewrite <- app_assoc. exact Hk.
    + rewrite Hy. eauto.
Qed.

Lemma rmatch_sound (r : regex) :
  forall {A : Type} (pre rest : list ascii) (cap : option (list ascii))
         (k : @cont A) (x : A),
    rmatch r pre rest cap k = Some x ->
    exists w post c',
      rest = w ++ post /\ lang r pre w post cap c' /\ k (pre ++ w) post c' = Some x.
Proof.
  induction r as [| | |p|p|r1 IH1 r2 IH2|r1 IH1 r2 IH2|r IH];
    intros A pre rest cap k x Hm; simpl in Hm.
  - exists [], rest, cap. simpl; rewrite ?app_nil_r. split_and!; auto. constructor.
  - destruct pre; [|discriminate].
    exists [], rest, cap. split_and!; auto. constructor.
  - destruct rest; [|discriminate].
    exists [], [], cap. simpl; rewrite ?app_nil_r. split_and!; auto. constructor.
  - destruct rest as [|c rest]; [discriminate|].
    destruct (p c) eqn:Hp; [|discriminate].
    exists [c], rest, cap. split_and!; auto. by constructor.
  - apply starMatch_sound in Hm as (w & post & -> & Hw & Hk).
    exists w, post, cap. split_and!; auto. by constructor.
  - apply IH1 in Hm as (w1 & post1 & c1 & -> & H1 & Hm).
    apply IH2 in Hm as (w2 & post & c2 & -> & H2 & Hk).
    exists (w1 ++ w2), post, c2. rewrite <- !app_assoc in *.
    split_and!; auto. econstructor; eauto.
  - destruct (rmatch r1 pre rest cap k) as [y|] eqn:H1.
    + inversion Hm; subst y.
      apply IH1 in H1 as (w & post & c' & -> & Hl & Hk).
      exists w, post, c'. split_and!; auto. by apply L_AltL.
    + apply IH2 in Hm as (w & post & c' & -> & Hl & Hk).
      exists w, post, c'. split_and!; auto. by apply L_AltR.
  - apply IH in Hm as (w & post & c' & -> & Hl & Hk).
    rewrite drop_app_length in Hk.
    exists w, post, (Some w). split_and!; auto. econstructor; eauto.
Qed.

Lemma rmatch_complete (r : regex) (pre w post : list ascii)
    (cap c' : option (list ascii)) :
  lang r pre w post cap c' ->
  forall {A : Type} (k : @cont A) (x : A),
    k (pre ++ w) post c' = Some x ->
    exists y, rmatch r pre (w ++ post) cap k = Some y.
Proof.
  induction 1 as [pre post c|post c|pre c|p pre x0 post c Hp|p pre w post c Hw
                 |r1 r2 pre w1 w2 post c c1 c2 H1 IH1 H2 IH2
                 |r1 r2 pre w post c c' H1 IH1|r1 r2 pre w post c c' H2 IH2
                 |r pre w post c c1 H1 IH1];
    intros A k x Hk; simpl.
  - rewrite app_nil_r in Hk. eauto.
  - eauto.
  - rewrite app_nil_r in Hk. eauto.
  - rewrite Hp. eauto.
  - eapply starMatch_complete; eauto.
  - rewrite <- app_assoc.
    rewrite app_assoc in Hk.
    destruct (IH2 A k x Hk) as [y Hy].
    eapply IH1. exact Hy.
  - destruct (IH1 A k x Hk) as [y Hy]. rewrite Hy. eauto.
  - destruct (rmatch r1 pre (w ++ post) c k); eauto.
  - eapply IH1. rewrite drop_app_length. exact Hk.
Qed.

Lemma searchFrom_sound (r : regex) (rest pre : list ascii)
    (cap : option (list ascii)) :
  searchFrom r pre rest = Some cap ->
  exists skipped w post,
    rest = skipped ++ w ++ post /\ lang r (pre ++ skipped) w post None cap.
Proof.
  revert pre. induction rest as [|c rest IH]; intros pre Hs; simpl in Hs.
  - destruct (rmatch r pre [] None _) as [y|] eqn:Hm; [|discriminate].
    inversion Hs; subst y.
    apply rmatch_sound in Hm as (w & post & c' & Heq & Hl & Hk).
    inversion Hk; subst c'. exists [], w, post. simpl; rewrite ?app_nil_r. auto.
  - destruct (rmatch r pre (c :: rest) None _) as [y|] eqn:Hm.
    + inversion Hs; subst y.
      apply rmatch_sound in Hm as (w & post & c' & Heq & Hl & Hk).
      inversion Hk; subst c'. exists [], w, post. simpl; rewrite ?app_nil_r. auto.
    + apply IH in Hs as (skipped & w & post & -> & Hl).
      exists (c :: skipped), w, post. rewrite <- app_assoc in Hl. auto.
Qed.

Lemma searchFrom_complete (r : regex) (skipped pre w post : list ascii)
    (cap : option (list ascii)) :
  lang r (pre ++ skipped) w post None cap ->
  exists cap', searchFrom r pre (skipped ++ w ++ post) = Some cap'.
Proof.
  revert pre. induction skipped as [|c skipped IH]; intros pre Hl.
  - rewrite app_nil_r in Hl. simpl.
    destruct (rmatch_complete _ _ _ _ _ _ Hl (fun _ _ cap => Some cap) cap eq_refl)
      as [y Hy].
    destruct (w ++ post); simpl; rewrite Hy; eauto.
  - simpl.
    destruct (rmatch r pre (c :: skipped ++ w ++ post) None _); eauto.
    apply IH. rewrite <- app_assoc. exact Hl.
Qed.

(** [re.test(s)] holds exactly when some part of [s] is matched. *)
Lemma reTest_spec (r : regex) (s : string) :
  reTest r s = true <->
  exists pre w post c, chars s = pre ++ w ++ post /\ lang r pre w post None c.
Proof.
  unfold reTest, reMatch. split.
  - destruct (searchFrom r [] (chars s)) as [cap|] eqn:Hs; [|discriminate].
    intros _. apply searchFrom_sound in Hs as (pre & w & post & Heq & Hl).
    eauto 6.
  - intros (pre & w & post & c & Heq & Hl). rewrite Heq.
    destruct (searchFrom_complete r pre [] w post c Hl) as [cap' Hc].
    by rewrite Hc.
Qed.

Lemma reMatch_spec (r : regex) (s : string) (cap : option (list ascii)) :
  reMatch r s = Some cap ->
  exists pre w post, chars s = pre ++ w ++ post /\ lang r pre w post None cap.
Proof. unfold reMatch. intros Hs. by apply searchFrom_sound in Hs. Qed.

Lemma reMatch_is_test (r : regex) (s : string) :
  (match reMatch r s with Some _ => true | None => false end) = reTest r s.
Proof. reflexivity. Qed.

(** ** Inversion of [lang] *)

Lemma lang_Eps_inv pre w post c c' :
  lang Eps pre w post c c' -> w = [] /\ c' = c.
Proof. by inversion 1. Qed.

Lemma lang_Bol_inv pre w post c c' :
  lang Bol pre w post c c' -> pre = [] /\ w = [] /\ c' = c.
Proof. by inversion 1. Qed.

Lemma lang_Eol_inv pre w post c c' :
  lang Eol pre w post c c' -> w = [] /\ post = [] /\ c' = c.
Proof. by inversion 1. Qed.

Lemma lang_Cls_inv p pre w post c c' :
  lang (Cls p) pre w post c c' -> exists x, w = [x] /\ p x = true /\ c' = c.
Proof. inversion 1; subst. eauto. Qed.

Lemma lang_Star_inv p pre w post c c' :
  lang (Star p) pre w post c c' -> Forall (fun x => p x = true) w /\ c' = c.
Proof. by inversion 1. Qed.

Lemma lang_Seq_inv r1 r2 pre w post c c2 :
  lang (Seq r1 r2) pre w post c c2 ->
  exists w1 w2 c1,
    w = w1 ++ w2 /\ lang r1 pre w1 (w2 ++ post) c c1
    /\ lang r2 (pre ++ w1) w2 post c1 c2.
Proof. inversion 1; subst. eauto 7. Qed.

Lemma lang_Alt_inv r1 r2 pre w post c c' :
  lang (Alt r1 r2) pre w post c c' ->
  lang r1 pre w post c c' \/ lang r2 pre w post c c'.
Proof. inversion 1; subst; auto. Qed.

Lemma lang_Grp_inv r pre w post c c' :
  lang (Grp r) pre w post c c' ->
  c' = Some w /\ exists c1, lang r pre w post c c1.
Proof. inversion 1; subst. eauto. Qed.

Lemma lang_Seq_intro r1 r2 pre w w1 w2 post c c1 c2 :
  w = w1 ++ w2 ->
  lang r1 pre w1 (w2 ++ post) c c1 ->
  lang r2 (pre ++ w1) w2 post c1 c2 ->
  lang (Seq r1 r2) pre w post c c2.
Proof. intros ->. apply L_Seq. Qed.

Ltac lang_inv :=
  repeat match goal with
    | H : lang Eps _ _ _ _ _ |- _ => apply lang_Eps_inv in H as [? ?]
    | H : lang Bol _ _ _ _ _ |- _ => apply lang_Bol_inv in H as (? & ? & ?)
    | H : lang Eol _ _ _ _ _ |- _ => apply lang_Eol_inv in H as (? & ? & ?)
    | H : lang (Cls _) _ _ _ _ _ |- _ => apply lang_Cls_inv in H as (? & ? & ? & ?)
    | H : lang (Star _) _ _ _ _ _ |- _ => apply lang_Star_inv in H as [? ?]
    | H : lang (Seq _ _) _ _ _ _ _ |- _ =>
        apply lang_Seq_inv in H as (? & ? & ? & ? & ? & ?)
    | H : lang (Alt _ _) _ _ _ _ _ |- _ => apply lang_Alt_inv in H as [?|?]
    | H : lang (Grp _) _ _ _ _ _ |- _ => apply lang_Grp_inv in H as (? & ? & ?)
    end.

Lemma isChar_true c x : isChar c x = true <-> x = c.
Proof. unfold isChar. apply Ascii.eqb_eq. Qed.

Lemma oneOf_true l x : oneOf l x = true <-> In x l.
Proof.
  unfold oneOf. rewrite existsb_exists. split.
  - intros (y & Hy & He). apply Ascii.eqb_eq in He. by subst.
  - intros Hin. exists x. split; [done|apply Ascii.eqb_refl].
Qed.

Lemma Forall_isChar c l :
  Forall (fun x => isChar c x = true) l <-> Forall (fun x => x = c) l.
Proof. apply Forall_iff. intros x. apply isChar_true. Qed.

Lemma Forall_isSpaceTab l :
  Forall (fun x => isSpaceTab x = true) l <-> allBlanks l.
Proof.
  apply Forall_iff. intros x. unfold isSpaceTab. rewrite oneOf_true. simpl.
  intuition congruence.
Qed.

Lemma isBullet_true x :
  isBullet x = true <-> x = "-"%char \/ x = "*"%char \/ x = "+"%char.
Proof. unfold isBullet. rewrite oneOf_true. simpl. intuition congruence. Qed.

Lemma isDotParen_true x :
  isDotParen x = true <-> x = "."%char \/ x = ")"%char.
Proof. unfold isDotParen. rewrite oneOf_true. simpl. intuition congruence. Qed.

Ltac chars_norm :=
  repeat match goal with
    | H : isChar _ _ = true |- _ => apply isChar_true in H
    | H : Forall (fun x => isChar _ x = true) _ |- _ => apply Forall_isChar in H
    | H : Forall (fun x => isSpaceTab x = true) _ |- _ =>
        apply Forall_isSpaceTab in H
    | H : isBullet _ = true |- _ => apply isBullet_true in H
    | H : isDotParen _ = true |- _ => apply isDotParen_true in H
    end.

(** The line feed that may open a match, or the start of the text. *)
Lemma lang_lineHead pre w post c c' :
  lang (Alt Bol (Cls (isChar LF))) pre w post c c' <->
  atLineStart (pre ++ w) /\ (w = [] /\ pre = [] \/ w = [LF]) /\ c' = c.
Proof.
  split.
  - intros H. lang_inv; subst.
    + repeat split; auto. by left.
    + chars_norm. subst. repeat split; auto. right. eauto.
  - intros (_ & [[-> ->]| ->] & ->).
    + apply L_AltL. constructor.
    + apply L_AltR. constructor. by apply isChar_true.
Qed.

Lemma atLineStart_split (p : list ascii) :
  atLineStart p ->
  exists pre w, p = pre ++ w /\ (w = [] /\ pre = [] \/ w = [LF]).
Proof.
  intros [->|[l' ->]].
  - exists [], []. auto.
  - exists l', [LF]. auto.
Qed.

Lemma lineStartRE_spec (s : string) :
  reTest lineStartRE s = true <-> endsAtLineStart s.
Proof.
  rewrite reTest_spec. unfold lineStartRE, endsAtLineStart. split.
  - intros (pre & w & post & c & Heq & Hl).
    apply lang_Seq_inv in Hl as (w1 & w2 & c1 & -> & H1 & H2).
    apply lang_lineHead in H1 as (Hp & _ & _).
    apply lang_Seq_inv in H2 as (w3 & w4 & c2 & -> & H3 & H4).
    apply lang_Star_inv in H3 as [Hs _].
    apply lang_Eol_inv in H4 as (-> & -> & _).
    chars_norm.
    exists (pre ++ w1), w3. rewrite Heq, !app_nil_r, <- app_assoc. auto.
  - intros (p & sp & Heq & Hp & Hsp).
    destruct (atLineStart_split p Hp) as (pre & w & -> & Hw).
    exists pre, (w ++ sp), [], None. split.
    + by rewrite Heq, app_nil_r, <- app_assoc.
    + eapply lang_Seq_intro; [reflexivity| |].
      * apply lang_lineHead. repeat split; auto.
      * eapply lang_Seq_intro with (w2 := []); [by rewrite app_nil_r| |].
        -- constructor. by apply Forall_isChar.
        -- constructor.
Qed.

Lemma lineEndRE_spec (s : string) :
  reTest lineEndRE s = true <-> endOfLine s.
Proof.
  rewrite reTest_spec. unfold lineEndRE, endOfLine, Opt. split.
  - intros (pre & w & post & c & Heq & Hl).
    apply lang_Seq_inv in Hl as (w1 & w2 & c1 & -> & H1 & H2).
    apply lang_Bol_inv in H1 as (-> & -> & _).
    apply lang_Seq_inv in H2 as (sp & w4 & c2 & -> & H3 & H4).
    apply lang_Star_inv in H3 as [Hs _]. chars_norm.
    simpl in Heq. exists sp, (w4 ++ post).
    split; [by rewrite Heq, <- app_assoc|]. split; [done|].
    apply lang_Alt_inv in H4 as [H4|H4].
    + apply lang_Seq_inv in H4 as (w5 & w6 & c3 & -> & H5 & H6).
      apply lang_Cls_inv in H6 as (y & -> & Hy & _). chars_norm. subst y.
      right. apply lang_Alt_inv in H5 as [H5|H5].
      * apply lang_Cls_inv in H5 as (z & -> & Hz & _). chars_norm. subst z.
        right. simpl. eauto.
      * apply lang_Eps_inv in H5 as [-> _]. left. simpl. eauto.
    + apply lang_Eol_inv in H4 as (-> & -> & _). by left.
  - intros (sp & rest & Heq & Hsp & Hrest).
    apply Forall_isChar in Hsp.
    destruct Hrest as [->|[[r ->]|[r ->]]].
    + exists [], sp, [], None. split; [by rewrite Heq|].
      eapply lang_Seq_intro with (w1 := []); [reflexivity|constructor|].
      eapply lang_Seq_intro with (w2 := []); [by rewrite app_nil_r| |].
      * by constructor.
      * apply L_AltR. constructor.
    + exists [], (sp ++ [LF]), r, None. split; [by rewrite Heq, <- app_assoc|].
      eapply lang_Seq_intro with (w1 := []); [reflexivity|constructor|].
      eapply lang_Seq_intro; [reflexivity| |].
      * by constructor.
      * apply L_AltL.
        eapply lang_Seq_intro with (w1 := []); [reflexivity| |].
        -- apply L_AltR. constructor.
        -- constructor. by apply isChar_true.
    + exists [], (sp ++ [CR; LF]), r, None.
      split; [by rewrite Heq, <- app_assoc|].
      eapply lang_Seq_intro with (w1 := []); [reflexivity|constructor|].
      eapply lang_Seq_intro; [reflexivity| |].
      * by constructor.
      * apply L_AltL.
        eapply lang_Seq_intro with (w1 := [CR]) (w2 := [LF]); [reflexivity| |].
        -- apply L_AltL. constructor. by apply isChar_true.
        -- constructor. by apply isChar_true.
Qed.

Lemma lang_Plus p pre w post c c' :
  lang (Plus p) pre w post c c' <->
  w <> [] /\ Forall (fun x => p x = true) w /\ c' = c.
Proof.
  unfold Plus. split.
  - intros H.
    apply lang_Seq_inv in H as (w1 & w2 & c1 & -> & H1 & H2).
    apply lang_Cls_inv in H1 as (x & -> & Hx & ->).
    apply lang_Star_inv in H2 as [Hw ->].
    repeat split; auto. constructor; auto.
  - intros (Hne & Hw & ->). destruct w as [|x w]; [done|].
    inversion Hw; subst.
    eapply lang_Seq_intro with (w1 := [x]) (w2 := w); [reflexivity| |];
      by constructor.
Qed.

Lemma lang_marker pre m post c c' :
  lang markerRE pre m post c c' <-> isMarker m /\ c' = c.
Proof.
  unfold markerRE, isMarker. split.
  - intros H. apply lang_Alt_inv in H as [H|H].
    + apply lang_Cls_inv in H as (x & -> & Hx & ->). chars_norm.
      split; [|done]. left. eauto.
    + apply lang_Seq_inv in H as (ds & w2 & c1 & -> & H1 & H2).
      apply lang_Plus in H1 as (Hne & Hds & ->).
      apply lang_Cls_inv in H2 as (x & -> & Hx & ->). chars_norm.
      split; [|done]. right. exists ds, x. auto.
  - intros [[(x & -> & Hx)|(ds & x & -> & Hne & Hds & Hx)] ->].
    + apply L_AltL. constructor. by apply isBullet_true.
    + apply L_AltR. eapply lang_Seq_intro; [reflexivity| |].
      * by apply lang_Plus.
      * constructor. by apply isDotParen_true.
Qed.

(** What [listLineStartRE] matches, and what its group captures: the
    blanks between the line start and the marker. *)
Lemma lang_listLineStartRE pre w post cap :
  lang listLineStartRE pre w post None cap <->
  exists w1 ws m sp,
    w = w1 ++ ws ++ m ++ sp /\ post = []
    /\ (w1 = [] /\ pre = [] \/ w1 = [LF])
    /\ allBlanks ws /\ isMarker m /\ sp <> [] /\ allSpaces sp
    /\ cap = Some ws.
Proof.
  unfold listLineStartRE. split.
  - intros H.
    apply lang_Seq_inv in H as (w1 & w2 & c1 & -> & H1 & H2).
    apply lang_lineHead in H1 as (_ & Hw1 & ->).
    apply lang_Seq_inv in H2 as (ws & w3 & c2 & -> & H2 & H3).
    apply lang_Grp_inv in H2 as (-> & c3 & H2).
    apply lang_Star_inv in H2 as [Hws _].
    apply lang_Seq_inv in H3 as (m & w4 & c4 & -> & H3 & H4).
    apply lang_marker in H3 as [Hm ->].
    apply lang_Seq_inv in H4 as (sp & w5 & c5 & -> & H4 & H5).
    apply lang_Plus in H4 as (Hne & Hsp & ->).
    apply lang_Eol_inv in H5 as (-> & -> & ->).
    chars_norm. exists w1, ws, m, sp. rewrite app_nil_r. repeat split; auto.
  - intros (w1 & ws & m & sp & -> & -> & Hw1 & Hws & Hm & Hne & Hsp & ->).
    eapply lang_Seq_intro; [reflexivity| |].
    + apply lang_lineHead. split; [|split; [exact Hw1|reflexivity]].
      destruct Hw1 as [[-> ->]| ->]; [by left|right; eauto].
    + eapply lang_Seq_intro; [reflexivity| |].
      * eapply L_Grp with (c1 := None). constructor.
        by apply Forall_isSpaceTab.
      * eapply lang_Seq_intro; [reflexivity| |].
        -- apply lang_marker. eauto.
        -- eapply lang_Seq_intro with (w2 := []); [by rewrite app_nil_r| |].
           ++ apply lang_Plus. repeat split; auto. by apply Forall_isChar.
           ++ constructor.
Qed.

Lemma listLineStartRE_spec (s : string) :
  reTest listLineStartRE s = true <-> listItemStart s.
Proof.
  rewrite reTest_spec. unfold listItemStart. split.
  - intros (pre & w & post & c & Heq & Hl).
    apply lang_listLineStartRE in Hl
      as (w1 & ws & m & sp & -> & -> & Hw1 & Hws & Hm & Hne & Hsp & ->).
    exists (pre ++ w1), ws, m, sp.
    rewrite Heq, app_nil_r, <- !app_assoc. repeat split; auto.
    destruct Hw1 as [[-> ->]| ->]; [by left|right; eauto].
  - intros (p & ws & m & sp & Heq & Hp & Hws & Hm & Hne & Hsp).
    destruct (atLineStart_split p Hp) as (pre & w1 & -> & Hw1).
    exists pre, (w1 ++ ws ++ m ++ sp), [], (Some ws). split.
    + by rewrite Heq, app_nil_r, <- !app_assoc.
    + apply lang_listLineStartRE. exists w1, ws, m, sp. repeat split; auto.
Qed.

(** The indent that [listLineStartRE] captures holds blanks only: it is
    the text between the line start and the marker, never the marker. *)
Lemma listLineStartRE_capture (s : string) (cap : option (list ascii)) :
  reMatch listLineStartRE s = Some cap ->
  exists p ws m sp,
    cap = Some ws /\ chars s = p ++ ws ++ m ++ sp
    /\ atLineStart p /\ allBlanks ws /\ isMarker m /\ sp <> [] /\ allSpaces sp.
Proof.
  intros H. apply reMatch_spec in H as (pre & w & post & Heq & Hl).
  apply lang_listLineStartRE in Hl
    as (w1 & ws & m & sp & -> & -> & Hw1 & Hws & Hm & Hne & Hsp & ->).
  exists (pre ++ w1), ws, m, sp.
  rewrite Heq, app_nil_r, <- !app_assoc. repeat split; auto.
  destruct Hw1 as [[-> ->]| ->]; [by left|right; eauto].
Qed.

(** ** The shape of a reference *)

(** C5. A processed reference is inline exactly when it is not the case
    that the text before it ends at a line start followed by spaces only
    or, with [bakeInList] on, is the start of a list item (blanks, a bullet
    or a numbered marker, at least one space), or when the text after it
    fails the end-of-line test (spaces only up to a line feed, a carriage
    return and a line feed, or the end of the text). *)
Theorem C5_inline_classification (settings : BakeSettings)
    (before after : string) :
  isInline (listMatchOf settings before) before after = true <->
  ~ (endsAtLineStart before
     \/ (bakeInList settings = true /\ listItemStart before))
  \/ ~ endOfLine after.
Proof.
  unfold isInline, listMatchOf.
  rewrite <- lineStartRE_spec, <- listLineStartRE_spec, <- lineEndRE_spec.
  destruct (bakeInList settings); rewrite ?reMatch_is_test;
    destruct (reTest listLineStartRE before), (reTest lineStartRE before),
      (reTest lineEndRE after); simpl; intuition congruence.
Qed.

(** ** The scan for hidden regions *)

Lemma prefix_length (pattern s : string) :
  String.prefix pattern s = true ->
  (String.length pattern <= String.length s)%nat.
Proof.
  revert s. induction pattern as [|a pattern IH]; intros s Hp; simpl.
  - lia.
  - destruct s as [|b s]; simpl in Hp; [discriminate|].
    destruct (ascii_dec a b); [|discriminate].
    apply IH in Hp. simpl. lia.
Qed.

Lemma index_bounds (pattern s : string) (n m : nat) :
  String.index n pattern s = Some m ->
  (n <= m /\ m + String.length pattern <= String.length s)%nat.
Proof.
  revert n m. induction s as [|b s IH]; intros n m Hi.
  - simpl in Hi. destruct n; [|discriminate]. destruct pattern; [|discriminate].
    inversion Hi. simpl. lia.
  - destruct n as [|n].
    + change (String.index 0 pattern (String b s))
        with (if String.prefix pattern (String b s) then Some 0%nat
              else match String.index 0 pattern s with
                   | Some k => Some (S k)
                   | None => None
                   end) in Hi.
      destruct (String.prefix pattern (String b s)) eqn:Hp.
      * inversion Hi; subst. apply prefix_length in Hp. lia.
      * destruct (String.index 0 pattern s) as [k|] eqn:Hk; [|discriminate].
        inversion Hi; subst. apply IH in Hk. simpl. lia.
    + simpl in Hi.
      destruct (String.index n pattern s) as [k|] eqn:Hk; [|discriminate].
      inversion Hi; subst. apply IH in Hk. simpl. lia.
Qed.

(** The [while] loop ends: every round moves [lastIndex] forward. *)
Lemma scanHidden_total (text : string) (fuel lastIndex : nat) :
  (lastIndex <= String.length text)%nat ->
  (String.length text < fuel + lastIndex)%nat ->
  exists regions, scanHidden fuel text lastIndex = Some regions.
Proof.
  revert lastIndex. induction fuel as [|fuel IH]; intros lastIndex Hle Hlt.
  - lia.
  - simpl. unfold execFrom at 1.
    destruct (String.index lastIndex hiddenStartRE text) as [start|] eqn:Hs;
      [|eauto].
    apply index_bounds in Hs.
    change (String.length hiddenStartRE) with 10%nat in Hs.
    destruct (IH (start + 10)%nat) as [more ->]; [lia|lia|]. eauto.
Qed.

Lemma findHiddenRegions_total (text : string) :
  exists regions, findHiddenRegions text = Some regions.
Proof. apply scanHidden_total; lia. Qed.

Lemma scanHidden_lower (text : string) (fuel lastIndex : nat)
    (regions : list Region) :
  scanHidden fuel text lastIndex = Some regions ->
  Forall (fun r => Z.of_nat lastIndex <= regionStart r) regions.
Proof.
  revert lastIndex regions.
  induction fuel as [|fuel IH]; intros lastIndex regions Hs; simpl in Hs.
  - discriminate.
  - unfold execFrom at 1 in Hs.
    destruct (String.index lastIndex hiddenStartRE text) as [start|] eqn:Hi.
    + apply index_bounds in Hi.
      change (String.length hiddenStartRE) with 10%nat in Hi.
      destruct (scanHidden fuel text (start + 10)) as [more|] eqn:Hm;
        [|discriminate].
      inversion Hs; subst. apply IH in Hm. apply Forall_app. split.
      * destruct (execFrom hiddenEndRE text (start + 10)); repeat constructor.
        simpl. lia.
      * eapply Forall_impl; [exact Hm|]. simpl. intros r Hr. lia.
    + inversion Hs. constructor.
Qed.

(** The regions are found from left to right. *)
Lemma scanHidden_ascending (text : string) (fuel lastIndex : nat)
    (regions : list Region) :
  scanHidden fuel text lastIndex = Some regions -> ascendingStarts regions.
Proof.
  revert lastIndex regions.
  induction fuel as [|fuel IH]; intros lastIndex regions Hs; simpl in Hs.
  - discriminate.
  - destruct (execFrom hiddenStartRE text lastIndex) as [start|].
    + destruct (scanHidden fuel text (start + 10)) as [more|] eqn:Hm;
        [|discriminate].
      inversion Hs; subst. pose proof (scanHidden_lower _ _ _ _ Hm) as Hlow.
      apply IH in Hm.
      destruct (execFrom hiddenEndRE text (start + 10)); simpl; [|exact Hm].
      constructor; [exact Hm|].
      eapply Forall_impl; [exact Hlow|]. simpl. intros r Hr. lia.
    + inversion Hs. constructor.
Qed.

(** Every region starts at a start marker and ends twelve characters
    after the start of the first end marker that follows that start
    marker; a start marker without such an end marker gives no region. *)
Lemma scanHidden_pairs (text : string) (fuel lastIndex : nat)
    (regions : list Region) :
  scanHidden fuel text lastIndex = Some regions ->
  Forall (fun r =>
            exists start endIndex : nat,
              r = mkRegion (Z.of_nat start) (Z.of_nat endIndex + 12)
              /\ String.substring start 10 text = hiddenStartRE
              /\ execFrom hiddenEndRE text (start + 10) = Some endIndex)
    regions.
Proof.
  revert lastIndex regions.
  induction fuel as [|fuel IH]; intros lastIndex regions Hs; simpl in Hs.
  - discriminate.
  - unfold execFrom at 1 in Hs.
    destruct (String.index lastIndex hiddenStartRE text) as [start|] eqn:Hi.
    + apply index_correct1 in Hi.
      destruct (scanHidden fuel text (start + 10)) as [more|] eqn:Hm;
        [|discriminate].
      inversion Hs; subst. apply IH in Hm. apply Forall_app. split; [|exact Hm].
      destruct (execFrom hiddenEndRE text (start + 10)) as [endIndex|] eqn:He;
        repeat constructor.
      exists start, endIndex. auto.
    + inversion Hs. constructor.
Qed.

(** ** Offset remapping *)

Lemma hiddenOffset_acc (regions : list Region) (refStart offset : Z) :
  hiddenOffset regions refStart offset = offset + specAdjustment regions refStart.
Proof.
  revert offset. unfold specAdjustment.
  induction regions as [|region more IH]; intros offset; simpl.
  - lia.
  - destruct (regionStart region <? refStart); simpl.
    + rewrite IH. unfold regionLength. lia.
    + lia.
Qed.

Lemma withinHidden_true (regions : list Region) (target : ReferenceCache) :
  withinHidden regions target = true <->
  exists region,
    In region regions
    /\ regionStart region <= startOffset target
    /\ endOffset target <= regionEnd region.
Proof.
  unfold withinHidden. rewrite existsb_exists.
  split; intros (region & Hin & Hc); exists region; split; auto.
  - apply andb_true_iff in Hc as [H1 H2]. lia.
  - apply andb_true_iff. lia.
Qed.

(** C1. With [bakeHidden] off, the regions found in a text come by
    ascending start; the amount taken from both the start and the end of a
    reference is the sum of the lengths (end minus start) of the regions up
    to, but not including, the first one whose start is not less than the
    original start of the reference; and a reference whose original span
    lies within the span of some region is skipped, the text and the
    running position offset staying as they were. *)
Theorem C1_offset_remapping `{U : Util} (app : App) (settings : BakeSettings)
    (text0 : string) (hiddenRegions : list Region) (target : ReferenceCache) :
  bakeHidden settings = false ->
  findHiddenRegions text0 = Some hiddenRegions ->
  ascendingStarts hiddenRegions
  /\ adjust settings hiddenRegions target
     = (startOffset target - specAdjustment hiddenRegions (startOffset target),
        endOffset target - specAdjustment hiddenRegions (startOffset target))
  /\ ((exists region,
          In region hiddenRegions
          /\ regionStart region <= startOffset target
          /\ endOffset target <= regionEnd region) ->
      forall recurse file newAncestors st,
        processTarget app settings recurse file newAncestors hiddenRegions
          st target = Ret st).
Proof.
  intros Hoff Hfind. split; [|split].
  - eapply scanHidden_ascending. exact Hfind.
  - unfold adjust. rewrite Hoff. simpl. by rewrite hiddenOffset_acc.
  - intros Hin recurse file newAncestors st.
    apply withinHidden_true in Hin.
    unfold processTarget. rewrite Hoff, Hin. simpl.
    by destruct (adjust settings hiddenRegions target).
Qed.

(** ** One reference *)

Section Step.
Context `{U : Util} (app : App) (settings : BakeSettings).
Context (recurse : TFile -> string -> result string) (file : TFile)
  (newAncestors : gset TFile) (hiddenRegions : list Region).

Local Abbreviation step := (processTarget app settings recurse file newAncestors hiddenRegions).
Local Abbreviation loop := (processTargets app settings recurse file newAncestors hiddenRegions).

(** The loop body in terms of the named pieces. *)
Lemma processTarget_unfold (st : LoopState) (target : ReferenceCache) :
  step st target =
  if skippedAsHidden settings hiddenRegions target then Ret st
  else
    let before := beforeOf settings hiddenRegions st target in
    let after := afterOf settings hiddenRegions st target in
    match getFirstLinkpathDest app (fst (parseLinktext (link target))) (path file) with
    | None => Ret st
    | Some linkedFile =>
        let listMatch := listMatchOf settings before in
        if negb (String.eqb (extension linkedFile) "md") then
          if negb (convertFileLinks settings) then Ret st
          else
            match getFullPath app with
            | None => Ret st
            | Some fullPathOf =>
                Ret (replaced settings hiddenRegions st target
                       ("![](" +:+ (if isWin then "file:///" else "file://")
                        +:+ encodeURI (fullPathOf (path linkedFile)) +:+ ")"))
            end
        else if bool_decide (linkedFile ∈ newAncestors)
                || isInline listMatch before after then
          Ret (replaced settings hiddenRegions st target
                 (orElse (displayText target) (fst (parseLinktext (link target)))))
        else
          let* r := recurse linkedFile (snd (parseLinktext (link target))) in
          Ret (replaced settings hiddenRegions st target
                 (match listMatch with
                  | Some m =>
                      applyIndent (stripFirstBullet (sanitizeBakedContent r))
                        (group1 m)
                  | None => sanitizeBakedContent r
                  end))
    end.
Proof.
  unfold processTarget, skippedAsHidden, replaced, replaceTarget, beforeOf,
    afterOf, liveStart, liveEnd.
  destruct (adjust settings hiddenRegions target) as [adjustedStart adjustedEnd].
  destruct (parseLinktext (link target)) as [path_ subpath]. simpl.
  reflexivity.
Qed.

Lemma processTargets_skip (st : LoopState) (target : ReferenceCache)
    (more : list ReferenceCache) :
  step st target = Ret st -> loop (target :: more) st = loop more st.
Proof. intros Hs. simpl. by rewrite Hs. Qed.

(** A reference that is not skipped, whose target is a document that is
    an ancestor or whose shape is inline, is replaced by text. *)
Lemma processTarget_text (st : LoopState) (target : ReferenceCache)
    (linkedFile : TFile) :
  skippedAsHidden settings hiddenRegions target = false ->
  getFirstLinkpathDest app (fst (parseLinktext (link target))) (path file)
    = Some linkedFile ->
  extension linkedFile = "md" ->
  linkedFile ∈ newAncestors
  \/ isInline (listMatchOf settings (beforeOf settings hiddenRegions st target))
       (beforeOf settings hiddenRegions st target)
       (afterOf settings hiddenRegions st target) = true ->
  step st target =
  Ret (replaced settings hiddenRegions st target
         (orElse (displayText target) (fst (parseLinktext (link target))))).
Proof.
  intros Hskip Hres Hmd Hwhy.
  rewrite processTarget_unfold, Hskip, Hres. simpl. rewrite Hmd. simpl.
  destruct Hwhy as [Hin|Hinline].
  - by rewrite (bool_decide_eq_true_2 _ Hin).
  - by rewrite Hinline, orb_true_r.
Qed.
End Step.

(** C7. A reference that the resolver does not resolve, or whose target
    is not a document while [convertFileLinks] is off, or whose target is
    not a document while the adapter has no [getFullPath], leaves the text
    and the running position offset as they were; the loop goes on with
    the references that follow, and the result is a normal one, not a
    thrown error. *)
Theorem C7_skipped_reference `{U : Util} (app : App) (settings : BakeSettings)
    (recurse : TFile -> string -> result string) (file : TFile)
    (newAncestors : gset TFile) (hiddenRegions : list Region)
    (st : LoopState) (target : ReferenceCache) (more : list ReferenceCache) :
  getFirstLinkpathDest app (fst (parseLinktext (link target))) (path file) = None
  \/ (exists linkedFile,
         getFirstLinkpathDest app (fst (parseLinktext (link target))) (path file)
           = Some linkedFile
         /\ extension linkedFile <> "md"
         /\ (convertFileLinks settings = false \/ getFullPath app = None)) ->
  processTarget app settings recurse file newAncestors hiddenRegions st target
    = Ret st
  /\ processTargets app settings recurse file newAncestors hiddenRegions
       (target :: more) st
     = processTargets app settings recurse file newAncestors hiddenRegions
         more st.
Proof.
  intros Hcase.
  assert (processTarget app settings recurse file newAncestors hiddenRegions
            st target = Ret st) as Hstep.
  { rewrite processTarget_unfold.
    destruct (skippedAsHidden settings hiddenRegions target); [done|].
    destruct Hcase as [->|(linkedFile & -> & Hext & Hwhy)]; [done|].
    simpl. apply String.eqb_neq in Hext. rewrite Hext. simpl.
    destruct Hwhy as [->| ->]; [done|].
    by destruct (convertFileLinks settings). }
  split; [exact Hstep|]. by apply processTargets_skip.
Qed.

(** C10. When a reference to a document is replaced by its text (the
    target is an ancestor or the shape is inline), the replacement is the
    path that [parseLinktext] returns for the link (the link text without
    its subpath) if the display text is absent or is the empty string; the
    display text is the replacement only when it is a string that is not
    empty. *)
Theorem C10_display_text_or_path `{U : Util} (app : App)
    (settings : BakeSettings) (recurse : TFile -> string -> result string)
    (file : TFile) (newAncestors : gset TFile) (hiddenRegions : list Region)
    (st : LoopState) (target : ReferenceCache) (linkedFile : TFile) :
  skippedAsHidden settings hiddenRegions target = false ->
  getFirstLinkpathDest app (fst (parseLinktext (link target))) (path file)
    = Some linkedFile ->
  extension linkedFile = "md" ->
  linkedFile ∈ newAncestors
  \/ isInline (listMatchOf settings (beforeOf settings hiddenRegions st target))
       (beforeOf settings hiddenRegions st target)
       (afterOf settings hiddenRegions st target) = true ->
  exists replacement,
    processTarget app settings recurse file newAncestors hiddenRegions st target
      = Ret (replaced settings hiddenRegions st target replacement)
    /\ (displayText target = None \/ displayText target = Some "" ->
        replacement = fst (parseLinktext (link target)))
    /\ (forall d, displayText target = Some d -> d <> "" -> replacement = d)
    /\ (replacement <> fst (parseLinktext (link target)) ->
        exists d, displayText target = Some d /\ d <> "" /\ replacement = d).
Proof.
  intros Hskip Hres Hmd Hwhy.
  exists (orElse (displayText target) (fst (parseLinktext (link target)))).
  split; [by eapply processTarget_text|].
  unfold orElse. destruct (displayText target) as [d|].
  - destruct (String.eqb_spec d "") as [->|Hne].
    + repeat split; try done. intros d [= <-] Hd. done.
    + repeat split.
      * intros [Habs|[= Hd]]; [done|]. by subst.
      * by intros d' [= <-] _.
      * intros _. eauto.
  - repeat split; try done.
Qed.

(** C4, as amended. For a reference that reaches the resolution step and
    whose resolved target is a document: if the target is in the derived
    ancestor set (the set of the caller plus the current document) or the
    shape is inline, the span of the reference is replaced by the display
    text when it is a string that is not empty, and by the parsed path
    otherwise; the running position offset moves by the difference of the
    lengths; whatever the recursive call would do is of no account, since
    it is not made. *)
Theorem C4_ancestor_or_inline_replaced_by_text `{U : Util} (app : App)
    (settings : BakeSettings) (file : TFile) (ancestors : gset TFile)
    (hiddenRegions : list Region) (st : LoopState) (target : ReferenceCache)
    (linkedFile : TFile) :
  skippedAsHidden settings hiddenRegions target = false ->
  getFirstLinkpathDest app (fst (parseLinktext (link target))) (path file)
    = Some linkedFile ->
  extension linkedFile = "md" ->
  linkedFile ∈ ancestors ∪ {[file]}
  \/ isInline (listMatchOf settings (beforeOf settings hiddenRegions st target))
       (beforeOf settings hiddenRegions st target)
       (afterOf settings hiddenRegions st target) = true ->
  forall recurse : TFile -> string -> result string,
    processTarget app settings recurse file (ancestors ∪ {[file]})
      hiddenRegions st target
    = Ret {| text :=
               beforeOf settings hiddenRegions st target
               +:+ (match displayText target with
                    | Some d =>
                        if String.eqb d "" then fst (parseLinktext (link target))
                        else d
                    | None => fst (parseLinktext (link target))
                    end)
               +:+ afterOf settings hiddenRegions st target;
             posOffset :=
               posOffset st
               + (jsLength (match displayText target with
                            | Some d =>
                                if String.eqb d ""
                                then fst (parseLinktext (link target))
                                else d
                            | None => fst (parseLinktext (link target))
                            end)
                  - (liveEnd settings hiddenRegions st target
                     - liveStart settings hiddenRegions st target)) |}.
Proof.
  intros Hskip Hres Hmd Hwhy recurse.
  by rewrite (processTarget_text app settings recurse file _ hiddenRegions
                st target linkedFile Hskip Hres Hmd Hwhy).
Qed.

(** ** The whole bake *)

Lemma hiddenFilter_total (settings : BakeSettings) (text0 : string) :
  exists hiddenRegions,
    hiddenFilter settings text0
    = Ret (hiddenRegions,
           if bakeHidden settings then text0
           else removeHidden hiddenRegions text0)
    /\ (bakeHidden settings = false -> findHiddenRegions text0 = Some hiddenRegions)
    /\ (bakeHidden settings = true -> hiddenRegions = []).
Proof.
  unfold hiddenFilter. destruct (bakeHidden settings); simpl.
  - exists []. by split_and!.
  - destruct (findHiddenRegions_total text0) as [regions ->].
    exists regions. by split_and!.
Qed.

(** C8. For a document without a structural index ([getFileCache] gives
    nothing), [bake] returns the text after the hidden-region filter (which
    removes regions only when [bakeHidden] is off) as it is: whatever the
    subpath, the ancestors and the recursive call, nothing is narrowed and
    no reference is processed. *)
Theorem C8_no_cache_returns_filtered_text `{U : Util} (app : App)
    (settings : BakeSettings) (file : TFile) (text0 : string) :
  cachedRead app file = Some text0 ->
  getFileCache app file = None ->
  exists hiddenRegions,
    (bakeHidden settings = false -> findHiddenRegions text0 = Some hiddenRegions)
    /\ (forall recurse subpath ancestors,
           bakeBody app settings recurse file subpath ancestors
           = Ret (if bakeHidden settings then text0
                  else removeHidden hiddenRegions text0))
    /\ (forall fuel subpath ancestors,
           bake app settings (S fuel) file subpath ancestors
           = Ret (if bakeHidden settings then text0
                  else removeHidden hiddenRegions text0)).
Proof.
  intros Hread Hcache.
  destruct (hiddenFilter_total settings text0) as (regions & Hf & Hoff & _).
  exists regions. split; [exact Hoff|].
  assert (forall recurse subpath ancestors,
             bakeBody app settings recurse file subpath ancestors
             = Ret (if bakeHidden settings then text0
                    else removeHidden regions text0)) as Hbody.
  { intros. unfold bakeBody. by rewrite Hread, Hf, Hcache. }
  split; [exact Hbody|]. intros. simpl. apply Hbody.
Qed.

(** ** Termination *)

Lemma bind_settles {A B : Type} (a a' : result A) (k k' : A -> result B) :
  settles a a' -> (forall x, settles (k x) (k' x)) ->
  settles (bind a k) (bind a' k').
Proof.
  unfold settles. intros Ha Hk Hne. destruct a as [x| |]; simpl in *.
  - rewrite Ha by done. simpl. by apply Hk.
  - by rewrite Ha.
  - done.
Qed.

Section Recursion.
Context `{U : Util} (app : App) (settings : BakeSettings).
Context (file : TFile) (newAncestors : gset TFile)
  (hiddenRegions : list Region).

(** The loop consults [recurse] only for resolved targets that are not
    in [newAncestors]: two stand-ins for the recursive call that are
    related on those targets give related loops.  The relation is any
    one that [bind] respects; equality and [settles] are used below. *)
Section Guard.
Context (R : forall A : Type, result A -> result A -> Prop).
Context (R_refl : forall A (a : result A), R A a a).
Context (R_bind : forall A B (a a' : result A) (k k' : A -> result B),
            R A a a' -> (forall x, R B (k x) (k' x)) ->
            R B (bind a k) (bind a' k')).
Context (recurse recurse' : TFile -> string -> result string).
Context (Hrec : forall linkpath linkedFile sp,
            getFirstLinkpathDest app linkpath (path file) = Some linkedFile ->
            linkedFile ∉ newAncestors ->
            R string (recurse linkedFile sp) (recurse' linkedFile sp)).

Lemma processTarget_guard (st : LoopState) (target : ReferenceCache) :
  R LoopState
    (processTarget app settings recurse file newAncestors hiddenRegions st target)
    (processTarget app settings recurse' file newAncestors hiddenRegions st target).
Proof.
  rewrite !processTarget_unfold.
  destruct (skippedAsHidden settings hiddenRegions target); [apply R_refl|].
  destruct (getFirstLinkpathDest app _ (path file)) as [linkedFile|] eqn:Hres;
    [|apply R_refl].
  simpl. destruct (negb (String.eqb (extension linkedFile) "md"));
    [apply R_refl|].
  destruct (bool_decide (linkedFile ∈ newAncestors)) eqn:Hin; [apply R_refl|].
  apply bool_decide_eq_false in Hin. simpl.
  destruct (isInline _ _ _); [apply R_refl|].
  apply R_bind; [by eapply Hrec|]. intros r. apply R_refl.
Qed.

Lemma processTargets_guard (targets : list ReferenceCache) (st : LoopState) :
  R LoopState
    (processTargets app settings recurse file newAncestors hiddenRegions targets st)
    (processTargets app settings recurse' file newAncestors hiddenRegions targets st).
Proof.
  revert st.
  induction targets as [|target more IH]; intros st; simpl; [apply R_refl|].
  apply R_bind; [apply processTarget_guard|]. apply IH.
Qed.
End Guard.

Lemma processTarget_ends (recurse : TFile -> string -> result string)
    (st : LoopState) (target : ReferenceCache) :
  (forall linkpath linkedFile sp,
      getFirstLinkpathDest app linkpath (path file) = Some linkedFile ->
      linkedFile ∉ newAncestors ->
      recurse linkedFile sp <> OutOfFuel) ->
  processTarget app settings recurse file newAncestors hiddenRegions st target
  <> OutOfFuel.
Proof.
  intros Hrec. rewrite processTarget_unfold.
  destruct (skippedAsHidden settings hiddenRegions target); [done|].
  destruct (getFirstLinkpathDest app _ (path file)) as [linkedFile|] eqn:Hres;
    [|done].
  simpl. destruct (negb (String.eqb (extension linkedFile) "md")).
  { destruct (negb (convertFileLinks settings)); [done|].
    by destruct (getFullPath app). }
  destruct (bool_decide (linkedFile ∈ newAncestors)) eqn:Hin; [done|].
  apply bool_decide_eq_false in Hin. simpl.
  destruct (isInline _ _ _); [done|].
  specialize (Hrec _ _ (snd (parseLinktext (link target))) Hres Hin).
  by destruct (recurse linkedFile _).
Qed.

Lemma processTargets_ends (recurse : TFile -> string -> result string)
    (targets : list ReferenceCache) (st : LoopState) :
  (forall linkpath linkedFile sp,
      getFirstLinkpathDest app linkpath (path file) = Some linkedFile ->
      linkedFile ∉ newAncestors ->
      recurse linkedFile sp <> OutOfFuel) ->
  processTargets app settings recurse file newAncestors hiddenRegions targets st
  <> OutOfFuel.
Proof.
  intros Hrec. revert st.
  induction targets as [|target more IH]; intros st; simpl; [done|].
  pose proof (processTarget_ends recurse st target Hrec) as Hstep.
  destruct (processTarget _ _ _ _ _ _ _ _) as [st'| |]; simpl;
    [apply IH|done|done].
Qed.
End Recursion.

Lemma settles_refl {A : Type} (a : result A) : settles a a.
Proof. by intros _. Qed.

Lemma settles_trans {A : Type} (a b c : result A) :
  settles a b -> settles b c -> settles a c.
Proof. unfold settles. intros Hab Hbc Ha. rewrite <- (Hab Ha). apply Hbc. by rewrite (Hab Ha). Qed.

Lemma bind_eq {A B : Type} (a a' : result A) (k k' : A -> result B) :
  a = a' -> (forall x, k x = k' x) -> bind a k = bind a' k'.
Proof. intros -> Hk. destruct a'; simpl; auto. Qed.

Section WholeBake.
Context `{U : Util} (app : App) (settings : BakeSettings).

(** [bakeBody] calls [recurse] only on resolved targets outside the
    derived ancestor set, and hands it that set. *)
Lemma bakeBody_guard (R : forall A : Type, result A -> result A -> Prop)
    (recurse recurse' : TFile -> option string -> gset TFile -> result string)
    (file : TFile) (subpath : option string) (ancestors : gset TFile) :
  (forall A (a : result A), R A a a) ->
  (forall A B (a a' : result A) (k k' : A -> result B),
      R A a a' -> (forall x, R B (k x) (k' x)) -> R B (bind a k) (bind a' k')) ->
  (forall linkpath linkedFile sp,
      getFirstLinkpathDest app linkpath (path file) = Some linkedFile ->
      linkedFile ∉ ancestors ∪ {[file]} ->
      R string (recurse linkedFile (Some sp) (ancestors ∪ {[file]}))
        (recurse' linkedFile (Some sp) (ancestors ∪ {[file]}))) ->
  R string (bakeBody app settings recurse file subpath ancestors)
    (bakeBody app settings recurse' file subpath ancestors).
Proof.
  intros R_refl R_bind Hrec. unfold bakeBody.
  destruct (cachedRead app file) as [text0|]; [|apply R_refl].
  apply R_bind; [apply R_refl|]. intros [regions text1].
  destruct (getFileCache app file) as [cache|]; [|apply R_refl].
  destruct (collectTargets settings cache) as [|t targets]; [apply R_refl|].
  apply R_bind; [|intros st; apply R_refl].
  apply processTargets_guard; auto.
Qed.

Lemma bake_step_settles (fuel : nat) :
  forall file subpath ancestors,
    settles (bake app settings fuel file subpath ancestors)
      (bake app settings (S fuel) file subpath ancestors).
Proof.
  induction fuel as [|fuel IH]; intros file subpath ancestors.
  - by intros Hne.
  - change (settles
              (bakeBody app settings (bake app settings fuel) file subpath ancestors)
              (bakeBody app settings (bake app settings (S fuel)) file subpath ancestors)).
    apply (bakeBody_guard (@settles)).
    + intros. apply settles_refl.
    + intros. by apply bind_settles.
    + intros. apply IH.
Qed.

(** More fuel never changes a result. *)
Lemma bake_fuel_settles (fuel fuel' : nat) file subpath ancestors :
  (fuel <= fuel')%nat ->
  settles (bake app settings fuel file subpath ancestors)
    (bake app settings fuel' file subpath ancestors).
Proof.
  induction 1 as [|fuel' Hle IH]; [apply settles_refl|].
  eapply settles_trans; [exact IH|apply bake_step_settles].
Qed.

Context (documents : gset TFile).
Context (Hdocs : forall linkpath sourcePath linkedFile,
            getFirstLinkpathDest app linkpath sourcePath = Some linkedFile ->
            linkedFile ∈ documents).

Lemma bake_ends (fuel : nat) :
  forall file subpath ancestors,
    (size (documents ∖ (ancestors ∪ {[file]})) < fuel)%nat ->
    bake app settings fuel file subpath ancestors <> OutOfFuel.
Proof.
  induction fuel as [|fuel IH]; intros file subpath ancestors Hsize; [lia|].
  simpl. unfold bakeBody.
  destruct (cachedRead app file) as [text0|]; [|done].
  destruct (hiddenFilter_total settings text0) as (regions & -> & _). simpl.
  destruct (getFileCache app file) as [cache|]; [|done].
  destruct (collectTargets settings cache) as [|t targets]; [done|].
  match goal with
  | |- bind ?m _ <> _ => assert (m <> OutOfFuel) as Hloop
  end.
  { apply processTargets_ends. intros linkpath linkedFile sp Hres Hnotin.
    apply IH. apply Hdocs in Hres.
    assert (documents ∖ (ancestors ∪ {[file]} ∪ {[linkedFile]})
              ⊂ documents ∖ (ancestors ∪ {[file]})) as Hsub by set_solver.
    apply subset_size in Hsub. lia. }
  match goal with
  | |- bind ?m _ <> _ => destruct m
  end; done.
Qed.
End WholeBake.

(** C6. In a vault with finitely many documents, [bake] ends.  The
    recursive call is made only for a resolved target outside the derived
    ancestor set and is handed that set, the set of the caller plus the
    current document, so every call on the path has a strictly larger set
    and the depth is bounded by the number of documents: with a fuel above
    the number of documents that are not yet ancestors the result is a
    normal or a thrown one, and it is the same for every such fuel. *)
Theorem C6_bake_terminates `{U : Util} (app : App) (settings : BakeSettings)
    (documents : gset TFile) (file : TFile) (subpath : option string)
    (ancestors : gset TFile) :
  (forall linkpath sourcePath linkedFile,
      getFirstLinkpathDest app linkpath sourcePath = Some linkedFile ->
      linkedFile ∈ documents) ->
  (exists r,
      r <> OutOfFuel
      /\ forall fuel,
          (size (documents ∖ (ancestors ∪ {[file]})) < fuel)%nat ->
          bake app settings fuel file subpath ancestors = r)
  /\ bake app settings (S (size documents)) file subpath ancestors <> OutOfFuel
  /\ (forall recurse recurse',
         (forall linkedFile sp,
             linkedFile ∉ ancestors ∪ {[file]} ->
             recurse linkedFile sp (ancestors ∪ {[file]})
             = recurse' linkedFile sp (ancestors ∪ {[file]})) ->
         bakeBody app settings recurse file subpath ancestors
         = bakeBody app settings recurse' file subpath ancestors).
Proof.
  intros Hdocs. split; [|split].
  - set (n := S (size (documents ∖ (ancestors ∪ {[file]})))).
    exists (bake app settings n file subpath ancestors).
    assert (bake app settings n file subpath ancestors <> OutOfFuel) as Hn.
    { apply (bake_ends app settings documents Hdocs). unfold n. lia. }
    split; [exact Hn|]. intros fuel Hfuel.
    apply (bake_fuel_settles app settings n fuel); [unfold n; lia|exact Hn].
  - apply (bake_ends app settings documents Hdocs).
    assert (size (documents ∖ (ancestors ∪ {[file]})) <= size documents)%nat.
    { apply subseteq_size. set_solver. }
    lia.
  - intros recurse recurse' Hrec.
    apply (bakeBody_guard app settings (fun A => @eq (result A))).
    + reflexivity.
    + intros. by apply bind_eq.
    + intros. by apply Hrec.
Qed.

(** ** The examples of the specification, run *)

Lemma resolveIn_documents (vault : list (string * (string * option SimpleCache)))
    (linkpath sourcePath : string) (linkedFile : TFile) :
  resolveIn vault linkpath sourcePath = Some linkedFile ->
  linkedFile ∈ vaultDocuments vault.
Proof.
  unfold resolveIn, vaultDocuments.
  destruct (list_find _ vault) as [[i e]|] eqn:Hfind; [|discriminate].
  intros [= <-]. apply list_find_Some in Hfind as (Hi & He & _).
  apply Is_true_true, String.eqb_eq in He. subst linkpath.
  apply elem_of_list_to_set, list_elem_of_fmap. exists e. split; [done|].
  by eapply list_elem_of_lookup_2.
Qed.

Lemma bake_fuel_result `{U : Util} (app : App) (settings : BakeSettings)
    (fuel fuel' : nat) (file : TFile) (subpath : option string)
    (ancestors : gset TFile) (r : result string) :
  bake app settings fuel file subpath ancestors = r ->
  r <> OutOfFuel ->
  (fuel <= fuel')%nat ->
  bake app settings fuel' file subpath ancestors = r.
Proof.
  intros <- Hne Hle. by apply (bake_fuel_settles app settings fuel fuel').
Qed.

(** The text of the example, whatever the rest of the vault: with
    [bakeHidden] off and no reference to process, [bake] returns the text
    without the region and without the character after it. *)
Lemma bake_hiddenExample `{U : Util} (app : App) (settings : BakeSettings)
    (file : TFile) (fuel : nat) (ancestors : gset TFile) :
  cachedRead app file = Some hiddenExample ->
  bakeHidden settings = false ->
  (getFileCache app file = None
   \/ exists cache,
       getFileCache app file = Some cache /\ collectTargets settings cache = []) ->
  bake app settings (S fuel) file None ancestors = Ret "A".
Proof.
  intros Hread Hoff Hcache. simpl. unfold bakeBody, hiddenFilter.
  rewrite Hread, Hoff. simpl.
  destruct Hcache as [->|(cache & -> & ->)]; reflexivity.
Qed.

(** C2: what the code does on the example.  The end marker is eleven
    characters long, the region that the scan records ends twelve
    characters after the start of the end marker, and the text that is
    left is the single character before the region: the character after
    the end marker goes with it. *)
Theorem C2_hidden_example_drops_the_next_character :
  String.length hiddenEndRE = 11%nat
  /\ findHiddenRegions hiddenExample = Some [mkRegion 1 24]
  /\ removeHidden [mkRegion 1 24] hiddenExample = "A"
  /\ (forall fuel,
         bake (vaultApp hiddenVault) allOn (S fuel) (mdFile "Host") None ∅
         = Ret "A")
  /\ "A" <> "AC".
Proof.
  split_and!; [reflexivity|reflexivity|reflexivity| |discriminate].
  intros fuel. apply bake_hiddenExample; [reflexivity|reflexivity|].
  right. by exists (mkCache None None).
Qed.

(** C3: what the code does when a start marker stands inside an open
    region.  The scan goes on right after the first start marker, so the
    second start marker opens a region of its own that ends at the same end
    marker; the two regions overlap, and removing both, the last one
    first, empties the text, the two characters after the end marker
    included. *)
Theorem C3_nested_start_marker_gives_overlapping_regions :
  findHiddenRegions nestedExample = Some [mkRegion 0 34; mkRegion 11 34]
  /\ ~ disjointRegions [mkRegion 0 34; mkRegion 11 34]
  /\ removeHidden [mkRegion 0 34; mkRegion 11 34] nestedExample = ""
  /\ (forall fuel,
         bake (vaultApp nestedVault) allOn (S fuel) (mdFile "Host") None ∅
         = Ret "").
Proof.
  split_and!; [reflexivity| |reflexivity|reflexivity].
  intros Hdis.
  specialize (Hdis 0%nat 1%nat (mkRegion 0 34) (mkRegion 11 34)).
  simpl in Hdis. specialize (Hdis ltac:(lia) eq_refl eq_refl). lia.
Qed.

(** Two regions that follow each other overlap as well, by the one
    character that each region takes after its end marker. *)
Example adjacent_regions_overlap :
  findHiddenRegions adjacentExample = Some [mkRegion 0 23; mkRegion 22 45]
  /\ removeHidden [mkRegion 0 23; mkRegion 22 45] adjacentExample = "".
Proof. split; reflexivity. Qed.

(** A start marker without an end marker loses its first two characters
    and one more when a region ends right there. *)
Example dangling_start_marker :
  findHiddenRegions danglingExample = Some [mkRegion 0 22]
  /\ removeHidden [mkRegion 0 22] danglingExample = "idden%%".
Proof. split; reflexivity. Qed.

(** C4, as stated, fails when the display text is present and empty: the
    link in the middle of a line is replaced by the path, not by the
    display text. *)
Lemma C4_counterexample :
  displayText emptyDisplayRef = Some ""
  /\ getFirstLinkpathDest (vaultApp inlineVault)
       (fst (parseLinktext (link emptyDisplayRef))) (path (mdFile "Host"))
     = Some (mdFile "Note")
  /\ extension (mdFile "Note") = "md"
  /\ isInline (listMatchOf allOn (beforeOf allOn [] inlineState emptyDisplayRef))
       (beforeOf allOn [] inlineState emptyDisplayRef)
       (afterOf allOn [] inlineState emptyDisplayRef) = true
  /\ processTarget (vaultApp inlineVault) allOn (fun _ _ => OutOfFuel)
       (mdFile "Host") (∅ ∪ {[mdFile "Host"]}) [] inlineState emptyDisplayRef
     = Ret (mkState "See Note here." (-4))
  /\ replaced allOn [] inlineState emptyDisplayRef "" = mkState "See  here." (-8)
  /\ processTarget (vaultApp inlineVault) allOn (fun _ _ => OutOfFuel)
       (mdFile "Host") (∅ ∪ {[mdFile "Host"]}) [] inlineState emptyDisplayRef
     <> Ret (replaced allOn [] inlineState emptyDisplayRef "").
Proof.
  split_and!; [reflexivity|reflexivity|reflexivity|reflexivity|reflexivity
             |reflexivity|].
  vm_compute. discriminate.
Qed.

Lemma append_empty_r (s : string) : s +:+ "" = s.
Proof.
  induction s as [|c s IH]; [done|].
  change (String c s +:+ "") with (String c (s +:+ "")). by f_equal.
Qed.

(** The list item of the specification in any vault: whatever the helpers
    of [./util] do, the indent that [bake] hands to [applyIndent] for the
    list item [- [[Note]]] is the empty string. *)
Lemma bake_list_item_indent `{U : Util} (app : App) (settings : BakeSettings)
    (fuel : nat) (host note : TFile) (cache : CachedMetadata)
    (ref : ReferenceCache) (linkpath sp baked : string)
    (ancestors : gset TFile) :
  cachedRead app host = Some "- [[Note]]" ->
  getFileCache app host = Some cache ->
  collectTargets settings cache = [ref] ->
  startOffset ref = 2 -> endOffset ref = 10 ->
  parseLinktext (link ref) = (linkpath, sp) ->
  getFirstLinkpathDest app linkpath (path host) = Some note ->
  extension note = "md" ->
  note ∉ ancestors ∪ {[host]} ->
  bakeInList settings = true ->
  bake app settings fuel note (Some sp) (ancestors ∪ {[host]}) = Ret baked ->
  bake app settings (S fuel) host None ancestors
  = Ret ("- " +:+ applyIndent (stripFirstBullet (sanitizeBakedContent baked)) "").
Proof.
  intros Hread Hcache Htargets Hstart Hend Hparse Hres Hmd Hnotin Hlist Hrec.
  simpl. unfold bakeBody. rewrite Hread.
  assert (hiddenFilter settings "- [[Note]]" = Ret ([], "- [[Note]]")) as ->.
  { unfold hiddenFilter. by destruct (bakeHidden settings). }
  simpl. rewrite Hcache, Htargets. simpl.
  assert (adjust settings [] ref = (2, 10)) as Hadj.
  { unfold adjust. rewrite Hstart, Hend. by destruct (bakeHidden settings). }
  rewrite processTarget_unfold.
  unfold skippedAsHidden, beforeOf, afterOf, replaced, liveStart, liveEnd,
    listMatchOf.
  rewrite Hadj, Hparse, Hlist, andb_false_r. simpl. rewrite Hres, Hmd. simpl.
  rewrite (bool_decide_eq_false_2 _ Hnotin).
  change (isInline (reMatch listLineStartRE "- ") "- " "") with false.
  simpl. rewrite Hrec. simpl.
  change (reMatch listLineStartRE "- ") with (Some (Some (@nil ascii))).
  unfold beforeOf, afterOf, liveStart, liveEnd. rewrite Hadj.
  change (substring "- [[Note]]" 0 (fst (2, 10) + 0)) with "- ".
  change (substringFrom "- [[Note]]" (snd (2, 10) + 0)) with "".
  change (group1 (Some [])) with "".
  by rewrite append_empty_r.
Qed.

(** C9, as stated, fails: the note bakes to the two lines, the list item
    matches with an empty capture, and the second line comes out without
    an indent. *)
Lemma C9_counterexample :
  bake (vaultApp listVault) allOn 1 (mdFile "Note") (Some "") {[mdFile "Host"]}
  = Ret ("Line1" +:+ nl +:+ "Line2")
  /\ reMatch listLineStartRE "- " = Some (Some [])
  /\ bake (vaultApp listVault) allOn 2 (mdFile "Host") None ∅
     = Ret ("- Line1" +:+ nl +:+ "Line2")
  /\ bake (vaultApp listVault) allOn 2 (mdFile "Host") None ∅
     <> Ret ("- Line1" +:+ nl +:+ "  Line2").
Proof.
  split_and!; [reflexivity|reflexivity|reflexivity|].
  vm_compute. discriminate.
Qed.

(** C9, as amended. For the list item [- [[Note]]] with [bakeInList] on,
    where Note bakes to the lines Line1 and Line2, the result is the list
    item with Line1 on the bullet and Line2 below it without an indent: the
    baked content has its first marker stripped and every later line is
    indented by the captured string, which is the run of blanks before the
    marker, here empty, and not the whole prefix of the list item.  Two
    columns in, the capture is two spaces and Line2 is indented by them. *)
Theorem C9_list_item_indent_is_the_blanks_before_the_marker :
  (forall fuel,
      bake (vaultApp listVault) allOn (S (S fuel)) (mdFile "Host") None ∅
      = Ret ("- Line1" +:+ nl +:+ "Line2"))
  /\ (forall fuel,
         bake (vaultApp indentedListVault) allOn (S (S fuel)) (mdFile "Host") None ∅
         = Ret ("  - Line1" +:+ nl +:+ "  Line2"))
  /\ reMatch listLineStartRE "- " = Some (Some [])
  /\ reMatch listLineStartRE "  - " = Some (Some (chars "  "))
  /\ (forall (before : string) (cap : option (list ascii)),
         reMatch listLineStartRE before = Some cap ->
         exists p ws m sp,
           cap = Some ws /\ chars before = p ++ ws ++ m ++ sp
           /\ atLineStart p /\ allBlanks ws /\ isMarker m
           /\ sp <> [] /\ allSpaces sp).
Proof.
  split_and!; [| |reflexivity|reflexivity|].
  - intros fuel.
    apply (bake_fuel_result (vaultApp listVault) allOn 2);
      [reflexivity|discriminate|lia].
  - intros fuel.
    apply (bake_fuel_result (vaultApp indentedListVault) allOn 2);
      [reflexivity|discriminate|lia].
  - apply listLineStartRE_capture.
Qed.

(** The two notes that embed each other: baking X takes Y in, and the
    embed of X inside Y is replaced by its display text. *)
Example cycle_is_replaced :
  forall fuel,
    bake (vaultApp cycleVault) allOn (S (S fuel)) (mdFile "X") None ∅
    = Ret ("y" +:+ nl +:+ "X").
Proof.
  intros fuel.
  apply (bake_fuel_result (vaultApp cycleVault) allOn 2);
    [reflexivity|discriminate|lia].
Qed.

(** ** The general theorems at work on the examples *)

Lemma C1_witness :
  bakeHidden allOn = false
  /\ findHiddenRegions hiddenExample = Some [mkRegion 1 24]
  /\ ascendingStarts [mkRegion 1 24]
  /\ adjust allOn [mkRegion 1 24] hiddenRef
     = (startOffset hiddenRef - specAdjustment [mkRegion 1 24] (startOffset hiddenRef),
        endOffset hiddenRef - specAdjustment [mkRegion 1 24] (startOffset hiddenRef))
  /\ processTarget (vaultApp hiddenVault) allOn (fun _ _ => OutOfFuel)
       (mdFile "Host") {[mdFile "Host"]} [mkRegion 1 24]
       (mkState "A" 0) hiddenRef
     = Ret (mkState "A" 0).
Proof.
  pose proof (C1_offset_remapping (vaultApp hiddenVault) allOn hiddenExample
                [mkRegion 1 24] hiddenRef eq_refl eq_refl)
    as (Hasc & Hadj & Hskip).
  split_and!; [reflexivity|reflexivity|exact Hasc|exact Hadj|].
  apply Hskip. exists (mkRegion 1 24).
  split_and!; [left; reflexivity|simpl; lia|simpl; lia].
Defined.

Lemma C4_witness :
  skippedAsHidden allOn [] backRef = false
  /\ getFirstLinkpathDest (vaultApp cycleVault)
       (fst (parseLinktext (link backRef))) (path (mdFile "Y"))
     = Some (mdFile "X")
  /\ extension (mdFile "X") = "md"
  /\ mdFile "X" ∈ ({[mdFile "X"]} : gset TFile) ∪ {[mdFile "Y"]}
  /\ processTarget (vaultApp cycleVault) allOn (fun _ _ => OutOfFuel)
       (mdFile "Y") ({[mdFile "X"]} ∪ {[mdFile "Y"]}) [] backState backRef
     = Ret (mkState ("y" +:+ nl +:+ "X") (-5)).
Proof.
  assert (mdFile "X" ∈ ({[mdFile "X"]} : gset TFile) ∪ {[mdFile "Y"]}) as Hin.
  { apply elem_of_union_l, elem_of_singleton. reflexivity. }
  split_and!; [reflexivity|reflexivity|reflexivity|exact Hin|].
  exact (C4_ancestor_or_inline_replaced_by_text (vaultApp cycleVault) allOn
           (mdFile "Y") {[mdFile "X"]} [] backState backRef (mdFile "X")
           eq_refl eq_refl eq_refl (or_introl Hin) (fun _ _ => OutOfFuel)).
Defined.

Lemma C6_witness :
  (forall linkpath sourcePath linkedFile,
      getFirstLinkpathDest (vaultApp cycleVault) linkpath sourcePath
      = Some linkedFile ->
      linkedFile ∈ vaultDocuments cycleVault)
  /\ (exists r,
         r <> OutOfFuel
         /\ forall fuel,
             (size (vaultDocuments cycleVault ∖ (∅ ∪ {[mdFile "X"]})) < fuel)%nat ->
             bake (vaultApp cycleVault) allOn fuel (mdFile "X") None ∅ = r)
  /\ bake (vaultApp cycleVault) allOn (S (size (vaultDocuments cycleVault)))
       (mdFile "X") None ∅ <> OutOfFuel.
Proof.
  pose proof (C6_bake_terminates (vaultApp cycleVault) allOn
                (vaultDocuments cycleVault) (mdFile "X") None ∅
                (resolveIn_documents cycleVault))
    as (Hr & Hn & _).
  split_and!; [apply resolveIn_documents|exact Hr|exact Hn].
Defined.

Lemma C7_witness :
  getFirstLinkpathDest (vaultApp listVault)
    (fst (parseLinktext (link missingRef))) (path (mdFile "Host")) = None
  /\ processTarget (vaultApp listVault) allOn (fun _ _ => OutOfFuel)
       (mdFile "Host") {[mdFile "Host"]} [] missingState missingRef
     = Ret missingState
  /\ processTargets (vaultApp listVault) allOn (fun _ _ => OutOfFuel)
       (mdFile "Host") {[mdFile "Host"]} [] [missingRef; missingRef] missingState
     = processTargets (vaultApp listVault) allOn (fun _ _ => OutOfFuel)
         (mdFile "Host") {[mdFile "Host"]} [] [missingRef] missingState.
Proof.
  split; [reflexivity|].
  exact (C7_skipped_reference (vaultApp listVault) allOn (fun _ _ => OutOfFuel)
           (mdFile "Host") {[mdFile "Host"]} [] missingState missingRef
           [missingRef] (or_introl eq_refl)).
Defined.

Lemma C8_witness :
  cachedRead (vaultApp rawVault) (mdFile "Raw") = Some hiddenExample
  /\ getFileCache (vaultApp rawVault) (mdFile "Raw") = None
  /\ exists hiddenRegions,
      (bakeHidden allOn = false -> findHiddenRegions hiddenExample = Some hiddenRegions)
      /\ (forall recurse subpath ancestors,
             bakeBody (vaultApp rawVault) allOn recurse (mdFile "Raw") subpath ancestors
             = Ret (if bakeHidden allOn then hiddenExample
                    else removeHidden hiddenRegions hiddenExample))
      /\ (forall fuel subpath ancestors,
             bake (vaultApp rawVault) allOn (S fuel) (mdFile "Raw") subpath ancestors
             = Ret (if bakeHidden allOn then hiddenExample
                    else removeHidden hiddenRegions hiddenExample)).
Proof.
  split_and!; [reflexivity|reflexivity|].
  exact (C8_no_cache_returns_filtered_text (vaultApp rawVault) allOn
           (mdFile "Raw") hiddenExample eq_refl eq_refl).
Defined.

Lemma C10_witness :
  skippedAsHidden allOn [] emptyDisplayRef = false
  /\ getFirstLinkpathDest (vaultApp inlineVault)
       (fst (parseLinktext (link emptyDisplayRef))) (path (mdFile "Host"))
     = Some (mdFile "Note")
  /\ extension (mdFile "Note") = "md"
  /\ isInline (listMatchOf allOn (beforeOf allOn [] inlineState emptyDisplayRef))
       (beforeOf allOn [] inlineState emptyDisplayRef)
       (afterOf allOn [] inlineState emptyDisplayRef) = true
  /\ exists replacement,
      processTarget (vaultApp inlineVault) allOn (fun _ _ => OutOfFuel)
        (mdFile "Host") {[mdFile "Host"]} [] inlineState emptyDisplayRef
      = Ret (replaced allOn [] inlineState emptyDisplayRef replacement)
      /\ (displayText emptyDisplayRef = None \/ displayText emptyDisplayRef = Some "" ->
          replacement = fst (parseLinktext (link emptyDisplayRef)))
      /\ (forall d, displayText emptyDisplayRef = Some d -> d <> "" -> replacement = d)
      /\ (replacement <> fst (parseLinktext (link emptyDisplayRef)) ->
          exists d, displayText emptyDisplayRef = Some d /\ d <> "" /\ replacement = d).
Proof.
  split_and!; [reflexivity|reflexivity|reflexivity|reflexivity|].
  exact (C10_display_text_or_path (vaultApp inlineVault) allOn
           (fun _ _ => OutOfFuel) (mdFile "Host") {[mdFile "Host"]} []
           inlineState emptyDisplayRef (mdFile "Note")
           eq_refl eq_refl eq_refl (or_intror eq_refl)).
Defined.

(** * Further properties of [bake] *)

(** ** The branches of the loop body that the claims leave out *)

(** X1. A reference that is not skipped and whose resolved target is not
    a markdown file is, when [convertFileLinks] is on and the adapter has
    [getFullPath], replaced by an image embed of the file URL: the
    protocol is [file:///] on Windows and [file://] elsewhere, followed by
    the encoded full path.  The shape of the reference, the ancestors and
    the recursive call play no part. *)
Theorem X1_file_link_conversion `{U : Util} (app : App)
    (settings : BakeSettings) (recurse : TFile -> string -> result string)
    (file : TFile) (newAncestors : gset TFile) (hiddenRegions : list Region)
    (st : LoopState) (target : ReferenceCache) (linkedFile : TFile)
    (fullPathOf : string -> string) :
  skippedAsHidden settings hiddenRegions target = false ->
  getFirstLinkpathDest app (fst (parseLinktext (link target))) (path file)
    = Some linkedFile ->
  extension linkedFile <> "md" ->
  convertFileLinks settings = true ->
  getFullPath app = Some fullPathOf ->
  processTarget app settings recurse file newAncestors hiddenRegions st target
  = Ret {| text :=
             beforeOf settings hiddenRegions st target
             +:+ ("![](" +:+ (if isWin then "file:///" else "file://")
                  +:+ encodeURI (fullPathOf (path linkedFile)) +:+ ")")
             +:+ afterOf settings hiddenRegions st target;
           posOffset :=
             posOffset st
             + (jsLength ("![](" +:+ (if isWin then "file:///" else "file://")
                          +:+ encodeURI (fullPathOf (path linkedFile)) +:+ ")")
                - (liveEnd settings hiddenRegions st target
                   - liveStart settings hiddenRegions st target)) |}.
Proof.
  intros Hskip Hres Hext Hconv Hfull.
  rewrite processTarget_unfold, Hskip, Hres. simpl.
  apply String.eqb_neq in Hext. rewrite Hext, Hconv, Hfull. reflexivity.
Qed.

(** X2. A reference that is not skipped, whose resolved target is a
    markdown file outside the derived ancestor set and whose shape is not
    inline, is replaced by the sanitized result of the recursive call,
    which is made on the target with the subpath of the link.  When the
    reference starts a list item (and [bakeInList] is on) the content
    first loses its first bullet and is indented by the capture of the
    list pattern. *)
Theorem X2_block_embed_is_baked `{U : Util} (app : App)
    (settings : BakeSettings) (recurse : TFile -> string -> result string)
    (file : TFile) (newAncestors : gset TFile) (hiddenRegions : list Region)
    (st : LoopState) (target : ReferenceCache) (linkedFile : TFile)
    (baked : string) :
  skippedAsHidden settings hiddenRegions target = false ->
  getFirstLinkpathDest app (fst (parseLinktext (link target))) (path file)
    = Some linkedFile ->
  extension linkedFile = "md" ->
  linkedFile ∉ newAncestors ->
  isInline (listMatchOf settings (beforeOf settings hiddenRegions st target))
    (beforeOf settings hiddenRegions st target)
    (afterOf settings hiddenRegions st target) = false ->
  recurse linkedFile (snd (parseLinktext (link target))) = Ret baked ->
  processTarget app settings recurse file newAncestors hiddenRegions st target
  = Ret (replaced settings hiddenRegions st target
           (match listMatchOf settings (beforeOf settings hiddenRegions st target) with
            | Some m =>
                applyIndent (stripFirstBullet (sanitizeBakedContent baked))
                  (group1 m)
            | None => sanitizeBakedContent baked
            end))
  /\ (bakeInList settings = false ->
      processTarget app settings recurse file newAncestors hiddenRegions st target
      = Ret (replaced settings hiddenRegions st target (sanitizeBakedContent baked))).
Proof.
  intros Hskip Hres Hmd Hnotin Hinline Hrec.
  assert (processTarget app settings recurse file newAncestors hiddenRegions
            st target
          = Ret (replaced settings hiddenRegions st target
                   (match listMatchOf settings
                            (beforeOf settings hiddenRegions st target) with
                    | Some m =>
                        applyIndent (stripFirstBullet (sanitizeBakedContent baked))
                          (group1 m)
                    | None => sanitizeBakedContent baked
                    end))) as Hstep.
  { rewrite processTarget_unfold, Hskip, Hres. simpl. rewrite Hmd. simpl.
    rewrite (bool_decide_eq_false_2 _ Hnotin), Hinline. simpl.
    by rewrite Hrec. }
  split; [exact Hstep|]. intros Hlist. rewrite Hstep.
  unfold listMatchOf. by rewrite Hlist.
Qed.

(** X3. When the recursive call for such a reference throws (the read of
    a document below was rejected), the loop throws the same failure at
    once: the references that follow are not processed and no text is
    returned. *)
Theorem X3_failure_below_aborts_the_loop `{U : Util} (app : App)
    (settings : BakeSettings) (recurse : TFile -> string -> result string)
    (file : TFile) (newAncestors : gset TFile) (hiddenRegions : list Region)
    (st : LoopState) (target : ReferenceCache) (more : list ReferenceCache)
    (linkedFile failed : TFile) :
  skippedAsHidden settings hiddenRegions target = false ->
  getFirstLinkpathDest app (fst (parseLinktext (link target))) (path file)
    = Some linkedFile ->
  extension linkedFile = "md" ->
  linkedFile ∉ newAncestors ->
  isInline (listMatchOf settings (beforeOf settings hiddenRegions st target))
    (beforeOf settings hiddenRegions st target)
    (afterOf settings hiddenRegions st target) = false ->
  recurse linkedFile (snd (parseLinktext (link target))) = Throw failed ->
  processTargets app settings recurse file newAncestors hiddenRegions
    (target :: more) st
  = Throw failed.
Proof.
  intros Hskip Hres Hmd Hnotin Hinline Hrec. simpl.
  rewrite processTarget_unfold, Hskip, Hres. simpl. rewrite Hmd. simpl.
  rewrite (bool_decide_eq_false_2 _ Hnotin), Hinline. simpl.
  by rewrite Hrec.
Qed.

(** X4. A reference from a document to itself never recurses: the
    document being baked is in the derived ancestor set, so the reference
    is replaced by its display text or path whatever its shape. *)
Theorem X4_self_reference_is_text `{U : Util} (app : App)
    (settings : BakeSettings) (recurse : TFile -> string -> result string)
    (file : TFile) (ancestors : gset TFile) (hiddenRegions : list Region)
    (st : LoopState) (target : ReferenceCache) :
  skippedAsHidden settings hiddenRegions target = false ->
  getFirstLinkpathDest app (fst (parseLinktext (link target))) (path file)
    = Some file ->
  extension file = "md" ->
  processTarget app settings recurse file (ancestors ∪ {[file]})
    hiddenRegions st target
  = Ret (replaced settings hiddenRegions st target
           (orElse (displayText target) (fst (parseLinktext (link target))))).
Proof.
  intros Hskip Hres Hmd.
  apply (processTarget_text app settings recurse file _ hiddenRegions st
           target file Hskip Hres Hmd).
  left. apply elem_of_union_r, elem_of_singleton. reflexivity.
Qed.

(** Whatever the branch, one round of the loop leaves the state as it
    was or replaces exactly the live span of the reference. *)
Lemma processTarget_shape `{U : Util} (app : App) (settings : BakeSettings)
    (recurse : TFile -> string -> result string) (file : TFile)
    (newAncestors : gset TFile) (hiddenRegions : list Region)
    (st st' : LoopState) (target : ReferenceCache) :
  processTarget app settings recurse file newAncestors hiddenRegions st target
    = Ret st' ->
  st' = st
  \/ exists replacement, st' = replaced settings hiddenRegions st target replacement.
Proof.
  rewrite processTarget_unfold.
  destruct (skippedAsHidden settings hiddenRegions target);
    [intros [= <-]; by left|].
  destruct (getFirstLinkpathDest app _ (path file)) as [linkedFile|];
    [|intros [= <-]; by left].
  simpl. destruct (negb (String.eqb (extension linkedFile) "md")).
  { destruct (negb (convertFileLinks settings)); [intros [= <-]; by left|].
    destruct (getFullPath app); intros [= <-]; [right; eauto|by left]. }
  destruct (bool_decide (linkedFile ∈ newAncestors) || isInline _ _ _);
    [intros [= <-]; right; eauto|].
  destruct (recurse linkedFile _) as [r| |]; simpl; [|discriminate..].
  intros [= <-]. right. eauto.
Qed.

(** ** Strings as lists of characters *)

Lemma chars_str (l : list ascii) : chars (str l) = l.
Proof. apply list_ascii_of_string_of_list_ascii. Qed.

Lemma str_chars (s : string) : str (chars s) = s.
Proof. apply string_of_list_ascii_of_string. Qed.

Lemma chars_inj (s t : string) : chars s = chars t -> s = t.
Proof. intros Heq. by rewrite <- (str_chars s), Heq, str_chars. Qed.

Lemma chars_append (s t : string) : chars (s +:+ t) = chars s ++ chars t.
Proof.
  induction s as [|c s IH]; [done|].
  change (String c s +:+ t) with (String c (s +:+ t)).
  unfold chars in *. simpl. by rewrite IH.
Qed.

Lemma chars_length (s : string) : length (chars s) = String.length s.
Proof. induction s as [|c s IH]; [done|]. unfold chars in *. simpl. by rewrite IH. Qed.

Lemma chars_String_substring (s : string) (n m : nat) :
  chars (String.substring n m s) = take m (drop n (chars s)).
Proof.
  revert n m. induction s as [|c s IH]; intros n m.
  - destruct n, m; reflexivity.
  - destruct n as [|n].
    + destruct m as [|m]; [reflexivity|].
      unfold chars in *. simpl. by rewrite IH.
    + unfold chars in *. simpl. apply IH.
Qed.

(** [s.substring(a, b)] for [0 <= a <= b], on lists. *)
Lemma chars_substring (s : string) (a b : Z) :
  0 <= a -> a <= b ->
  chars (substring s a b)
  = take (Z.to_nat b - Z.to_nat a) (drop (Z.to_nat a) (chars s)).
Proof.
  intros Ha Hab. unfold substring, clampIndex.
  rewrite chars_String_substring, <- chars_length.
  set (T := chars s).
  destruct (decide (length T <= Z.to_nat a)%nat) as [Hge|Hlt].
  - rewrite !drop_ge by lia. by rewrite !take_nil.
  - replace (Nat.min (Nat.min (Z.to_nat a) (length T))
               (Nat.min (Z.to_nat b) (length T)))
      with (Z.to_nat a) by lia.
    destruct (decide (Z.to_nat b <= length T)%nat) as [Hb|Hb].
    + f_equal. lia.
    + rewrite !take_ge; [done|rewrite length_drop; lia|rewrite length_drop; lia].
Qed.

(** [s.substring(0, b)], whatever [b]. *)
Lemma chars_substring_0 (s : string) (b : Z) :
  chars (substring s 0 b) = take (Z.to_nat b) (chars s).
Proof.
  destruct (decide (0 <= b)) as [Hb|Hb].
  - rewrite chars_substring by lia. simpl. f_equal. lia.
  - unfold substring, clampIndex. rewrite chars_String_substring.
    replace (Z.to_nat b) with 0%nat by lia. simpl. by rewrite take_0.
Qed.

(** [s.substring(a)], whatever [a]. *)
Lemma chars_substringFrom (s : string) (a : Z) :
  chars (substringFrom s a) = drop (Z.to_nat a) (chars s).
Proof.
  unfold substringFrom, substring, clampIndex.
  rewrite chars_String_substring, <- chars_length, Nat2Z.id.
  set (T := chars s).
  destruct (decide (length T <= Z.to_nat a)%nat) as [Hge|Hlt].
  - rewrite !drop_ge by lia. by rewrite take_nil.
  - replace (Nat.min (Nat.min (Z.to_nat a) (length T))
               (Nat.min (length T) (length T)))
      with (Z.to_nat a) by lia.
    apply take_ge. rewrite length_drop. lia.
Qed.

Lemma jsLength_chars (s : string) : jsLength s = Z.of_nat (length (chars s)).
Proof. unfold jsLength. by rewrite chars_length. Qed.

(** ** The running position offset *)

(** X5. When the live span of a reference lies within the text, one
    round of the loop keeps the length of the text and the running
    position offset in step: whatever the branch, the length of the text
    minus the offset is what it was, so the offset is the length that the
    replacements so far have added. *)
Theorem X5_offset_tracks_length `{U : Util} (app : App)
    (settings : BakeSettings) (recurse : TFile -> string -> result string)
    (file : TFile) (newAncestors : gset TFile) (hiddenRegions : list Region)
    (st st' : LoopState) (target : ReferenceCache) :
  0 <= liveStart settings hiddenRegions st target ->
  liveStart settings hiddenRegions st target
    <= liveEnd settings hiddenRegions st target ->
  liveEnd settings hiddenRegions st target <= jsLength (text st) ->
  processTarget app settings recurse file newAncestors hiddenRegions st target
    = Ret st' ->
  jsLength (text st') - posOffset st' = jsLength (text st) - posOffset st.
Proof.
  intros H0 Hle Hlen Hstep.
  apply processTarget_shape in Hstep as [->|[replacement ->]]; [done|].
  unfold replaced. simpl.
  rewrite !jsLength_chars, !chars_append.
  unfold beforeOf, afterOf. rewrite chars_substring_0, chars_substringFrom.
  rewrite jsLength_chars in Hlen.
  rewrite !length_app, length_take, length_drop. lia.
Qed.

(** X6. A replacement does not disturb the references behind it: when
    the live span of a reference lies within the text and a second
    reference starts, in adjusted offsets, at or after the end of the
    first, then after the round for the first the live span of the second
    holds the very characters it held before. *)
Theorem X6_later_reference_keeps_its_text `{U : Util} (app : App)
    (settings : BakeSettings) (recurse : TFile -> string -> result string)
    (file : TFile) (newAncestors : gset TFile) (hiddenRegions : list Region)
    (st st' : LoopState) (target later : ReferenceCache) :
  0 <= liveStart settings hiddenRegions st target ->
  liveStart settings hiddenRegions st target
    <= liveEnd settings hiddenRegions st target ->
  liveEnd settings hiddenRegions st target <= jsLength (text st) ->
  snd (adjust settings hiddenRegions target)
    <= fst (adjust settings hiddenRegions later) ->
  fst (adjust settings hiddenRegions later)
    <= snd (adjust settings hiddenRegions later) ->
  processTarget app settings recurse file newAncestors hiddenRegions st target
    = Ret st' ->
  substring (text st') (liveStart settings hiddenRegions st' later)
    (liveEnd settings hiddenRegions st' later)
  = substring (text st) (liveStart settings hiddenRegions st later)
      (liveEnd settings hiddenRegions st later).
Proof.
  intros H0 Hle Hlen Hafter Hlater Hstep.
  apply processTarget_shape in Hstep as [->|[replacement ->]]; [done|].
  apply chars_inj.
  unfold replaced, beforeOf, afterOf. simpl. unfold liveStart, liveEnd in *.
  simpl. rewrite jsLength_chars in *.
  destruct (adjust settings hiddenRegions target) as [a1 b1].
  destruct (adjust settings hiddenRegions later) as [a2 b2]. simpl in *.
  rewrite !chars_substring by lia.
  rewrite !chars_append, chars_substring_0, chars_substringFrom.
  set (T := chars (text st)) in *. set (R := chars replacement) in *.
  rewrite app_assoc, drop_app_ge
    by (rewrite length_app, length_take; lia).
  rewrite length_app, length_take, drop_drop. f_equal; [lia|]. f_equal. lia.
Qed.

(** ** Hidden regions and the remapped offsets together *)

Lemma chars_removeRegion (region : Region) (text : string) :
  chars (removeRegion region text)
  = take (Z.to_nat (regionStart region)) (chars text)
    ++ drop (Z.to_nat (regionEnd region)) (chars text).
Proof.
  unfold removeRegion.
  by rewrite chars_append, chars_substring_0, chars_substringFrom.
Qed.

(** Removing a stretch that lies behind a span leaves the span alone. *)
Lemma slice_before_removed (T : list ascii) (s e a b : nat) :
  (s <= e)%nat -> (e <= a)%nat -> (a <= b)%nat ->
  take (e - s) (drop s (take a T ++ drop b T)) = take (e - s) (drop s T).
Proof.
  intros Hse Hea Hab.
  destruct (decide (a <= length T)%nat) as [Ha|Ha].
  - rewrite drop_app_le by (rewrite length_take; lia).
    rewrite take_app_le by (rewrite length_drop, length_take; lia).
    replace (take a T) with (take (s + (a - s)) T) by (f_equal; lia).
    rewrite <- take_drop_commute, take_take. f_equal. lia.
  - rewrite (take_ge T a) by lia. rewrite (drop_ge T b) by lia.
    by rewrite app_nil_r.
Qed.

(** Removing a stretch that lies before a position moves the position
    back by the length of the stretch. *)
Lemma drop_after_removed (T : list ascii) (s a b : nat) :
  (a <= b)%nat -> (b <= s)%nat ->
  drop (s - (b - a)) (take a T ++ drop b T) = drop s T.
Proof.
  intros Hab Hbs.
  destruct (decide (a <= length T)%nat) as [Ha|Ha].
  - rewrite drop_app_ge by (rewrite length_take; lia).
    rewrite length_take, drop_drop. f_equal. lia.
  - rewrite (take_ge T a) by lia. rewrite (drop_ge T b) by lia.
    rewrite app_nil_r, !drop_ge; [done|lia|lia].
Qed.

(** Regions that all start at or after the end of a span. *)
Lemma removeHidden_behind (regions : list Region) (text : string) (s e : Z) :
  0 <= s -> s <= e ->
  Forall (fun r => e <= regionStart r /\ regionStart r <= regionEnd r) regions ->
  take (Z.to_nat e - Z.to_nat s)
    (drop (Z.to_nat s) (chars (removeHidden regions text)))
  = take (Z.to_nat e - Z.to_nat s) (drop (Z.to_nat s) (chars text)).
Proof.
  intros Hs Hse. induction 1 as [|r regions [Hr1 Hr2] Hall IH]; [done|].
  simpl. rewrite chars_removeRegion, slice_before_removed by lia. exact IH.
Qed.

(** The adjustment never reaches past the reference: the regions that
    count lie between a lower bound and the start of the reference. *)
Lemma specAdjustment_bounds (regions : list Region) (lo s e : Z) :
  lo <= s -> s <= e ->
  chainedRegions regions ->
  Forall (fun r => lo <= regionStart r /\ regionStart r < regionEnd r
                   /\ (regionEnd r <= s \/ e <= regionStart r)) regions ->
  0 <= specAdjustment regions s <= s - lo.
Proof.
  intros Hlo Hse Hchain. revert lo Hlo.
  induction Hchain as [|r regions Hchain IH Hr]; intros lo Hlo Hall.
  - unfold specAdjustment. simpl. lia.
  - inversion Hall as [|? ? (Hr1 & Hr2 & Hr3) Hall']; subst.
    unfold specAdjustment in *. simpl.
    destruct (regionStart r <? s) eqn:Hlt; simpl; [|lia].
    apply Z.ltb_lt in Hlt.
    assert (regionEnd r <= s) as Hend by lia.
    specialize (IH (regionEnd r) Hend).
    assert (0 <= foldr (fun region acc => regionLength region + acc) 0
                   (specPreceding regions s) <= s - regionEnd r) as Hb.
    { apply IH. rewrite Forall_forall in *. intros x Hx.
      specialize (Hall' x Hx). specialize (Hr x Hx). simpl in Hr. lia. }
    unfold regionLength in *. lia.
Qed.

Lemma remapped_slice (regions : list Region) (text : string) (s e : Z) :
  0 <= s -> s <= e ->
  chainedRegions regions ->
  Forall (fun r => 0 <= regionStart r /\ regionStart r < regionEnd r
                   /\ (regionEnd r <= s \/ e <= regionStart r)) regions ->
  take (Z.to_nat (e - specAdjustment regions s)
        - Z.to_nat (s - specAdjustment regions s))
    (drop (Z.to_nat (s - specAdjustment regions s))
       (chars (removeHidden regions text)))
  = take (Z.to_nat e - Z.to_nat s) (drop (Z.to_nat s) (chars text)).
Proof.
  intros Hs Hse Hchain.
  induction Hchain as [|r regions Hchain IH Hr]; intros Hall.
  - unfold specAdjustment. simpl. by rewrite !Z.sub_0_r.
  - inversion Hall as [|? ? (Hr1 & Hr2 & Hr3) Hall']; subst.
    destruct (regionStart r <? s) eqn:Hlt.
    + apply Z.ltb_lt in Hlt.
      assert (regionEnd r <= s) as Hend by lia.
      assert (0 <= specAdjustment regions s <= s - regionEnd r) as Hb.
      { apply (specAdjustment_bounds regions (regionEnd r) s e); auto.
        rewrite Forall_forall in *. intros x Hx.
        specialize (Hall' x Hx). specialize (Hr x Hx). simpl in Hr. lia. }
      assert (specAdjustment (r :: regions) s
              = regionLength r + specAdjustment regions s) as ->.
      { unfold specAdjustment. simpl. by rewrite (proj2 (Z.ltb_lt _ _) Hlt). }
      specialize (IH Hall'). rewrite <- IH. unfold regionLength.
      simpl. rewrite chars_removeRegion.
      set (T := chars (removeHidden regions text)).
      replace (Z.to_nat (s - (regionEnd r - regionStart r + specAdjustment regions s)))
        with (Z.to_nat (s - specAdjustment regions s)
              - (Z.to_nat (regionEnd r) - Z.to_nat (regionStart r)))%nat by lia.
      rewrite drop_after_removed by lia. f_equal. lia.
    + apply Z.ltb_ge in Hlt.
      assert (specAdjustment (r :: regions) s = 0) as ->.
      { unfold specAdjustment. simpl. by rewrite (proj2 (Z.ltb_ge _ _) Hlt). }
      rewrite !Z.sub_0_r. apply removeHidden_behind; [lia|lia|].
      constructor; [lia|].
      rewrite Forall_forall in *. intros x Hx.
      specialize (Hall' x Hx). specialize (Hr x Hx). simpl in Hr. lia.
Qed.

(** X7. Removing the hidden regions and remapping the offsets fit
    together: when the regions follow one another without touching and a
    reference lies outside all of them, its adjusted span in the text
    without the regions holds the characters that its original span holds
    in the text as read. *)
Theorem X7_remapped_span_holds_the_reference (settings : BakeSettings)
    (regions : list Region) (text : string) (target : ReferenceCache) :
  bakeHidden settings = false ->
  chainedRegions regions ->
  Forall (fun r => 0 <= regionStart r /\ regionStart r < regionEnd r
                   /\ (regionEnd r <= startOffset target
                       \/ endOffset target <= regionStart r)) regions ->
  0 <= startOffset target ->
  startOffset target <= endOffset target ->
  substring (removeHidden regions text)
    (fst (adjust settings regions target)) (snd (adjust settings regions target))
  = substring text (startOffset target) (endOffset target).
Proof.
  intros Hoff Hchain Hall Hs Hse.
  pose proof (specAdjustment_bounds regions 0 (startOffset target)
                (endOffset target) Hs Hse Hchain Hall) as Hb.
  unfold adjust. rewrite Hoff. simpl. rewrite hiddenOffset_acc. simpl.
  apply chars_inj. rewrite !chars_substring by lia.
  by apply remapped_slice.
Qed.

(** ** The scan for hidden regions, further *)

(** X8. Every region that the scan records starts inside the text, is at
    least twenty-two characters long (the ten of the start marker and the
    twelve counted from the start of the end marker) and ends at most one
    character past the end of the text. *)
Theorem X8_region_bounds (text : string) (regions : list Region) :
  findHiddenRegions text = Some regions ->
  Forall (fun r =>
            0 <= regionStart r
            /\ regionStart r + 22 <= regionEnd r
            /\ regionEnd r <= jsLength text + 1) regions.
Proof.
  intros Hfind. apply scanHidden_pairs in Hfind.
  eapply Forall_impl; [exact Hfind|]. simpl.
  intros r (start & endIndex & -> & _ & Hend).
  apply index_bounds in Hend.
  change (String.length hiddenEndRE) with 11%nat in Hend.
  unfold jsLength. simpl. lia.
Qed.

Lemma index_none_from (pattern s : string) (n : nat) :
  pattern <> "" ->
  String.index 0 pattern s = None -> String.index n pattern s = None.
Proof.
  intros Hne Hnone.
  destruct (String.index n pattern s) as [m|] eqn:Hm; [|done].
  apply index_correct1 in Hm.
  exfalso. apply (index_correct3 0 m pattern s Hnone Hne); [lia|exact Hm].
Qed.

Lemma scanHidden_nothing (text : string) (fuel lastIndex : nat)
    (regions : list Region) :
  execFrom hiddenStartRE text 0 = None \/ execFrom hiddenEndRE text 0 = None ->
  scanHidden fuel text lastIndex = Some regions -> regions = [].
Proof.
  intros Hno. revert lastIndex regions.
  induction fuel as [|fuel IH]; intros lastIndex regions Hs; simpl in Hs.
  - discriminate.
  - destruct (execFrom hiddenStartRE text lastIndex) as [start|] eqn:Hstart;
      [|by inversion Hs].
    destruct Hno as [Hno|Hno].
    + unfold execFrom in *.
      rewrite (index_none_from hiddenStartRE text lastIndex) in Hstart;
        [discriminate|discriminate|exact Hno].
    + unfold execFrom at 1 in Hs.
      rewrite (index_none_from hiddenEndRE text (start + 10)) in Hs;
        [|discriminate|exact Hno].
      destruct (scanHidden fuel text (start + 10)) as [more|] eqn:Hm;
        [|discriminate].
      inversion Hs; subst. simpl. by eapply IH.
Qed.

(** X9. A text that holds no start marker, or no end marker, has no
    hidden region, and the hidden-region filter returns it as it is,
    start markers without an end marker included. *)
Theorem X9_no_marker_no_change (settings : BakeSettings) (text : string) :
  execFrom hiddenStartRE text 0 = None \/ execFrom hiddenEndRE text 0 = None ->
  findHiddenRegions text = Some []
  /\ hiddenFilter settings text = Ret ([], text).
Proof.
  intros Hno.
  destruct (findHiddenRegions_total text) as [regions Hfind].
  pose proof (scanHidden_nothing _ _ _ _ Hno Hfind) as ->.
  split; [exact Hfind|]. unfold hiddenFilter. rewrite Hfind.
  by destruct (bakeHidden settings).
Qed.

(** ** A document without references to process *)

(** X10. When no reference is collected (links are off or the cache has
    none, and embeds are off or the cache has none), [bake] returns the
    text after the hidden-region filter, narrowed to the subpath only when
    the subpath is a non-empty string that [resolveSubpath] resolves; the
    resolver of link paths and the recursive call are not used. *)
Theorem X10_bake_without_targets `{U : Util} (app : App)
    (settings : BakeSettings) (file : TFile) (text0 : string)
    (cache : CachedMetadata) :
  cachedRead app file = Some text0 ->
  getFileCache app file = Some cache ->
  bakeLinks settings = false \/ links cache = None \/ links cache = Some [] ->
  bakeEmbeds settings = false \/ embeds cache = None \/ embeds cache = Some [] ->
  exists hiddenRegions,
    (bakeHidden settings = false -> findHiddenRegions text0 = Some hiddenRegions)
    /\ forall recurse subpath ancestors,
        bakeBody app settings recurse file subpath ancestors
        = Ret (let filtered := if bakeHidden settings then text0
                               else removeHidden hiddenRegions text0 in
               match subpath with
               | Some sp =>
                   if String.eqb sp "" then filtered
                   else match resolveSubpath cache sp with
                        | Some r => extractSubpath filtered r cache
                        | None => filtered
                        end
               | None => filtered
               end).
Proof.
  intros Hread Hcache Hlinks Hembeds.
  assert (collectTargets settings cache = []) as Hnone.
  { unfold collectTargets.
    assert ((if bakeLinks settings then default [] (links cache) else [])
            = []) as ->.
    { destruct Hlinks as [->|[->| ->]]; [done|..]; by destruct (bakeLinks settings). }
    destruct Hembeds as [->|[->| ->]]; [done|..]; by destruct (bakeEmbeds settings). }
  destruct (hiddenFilter_total settings text0) as (regions & Hf & Hoff & _).
  exists regions. split; [exact Hoff|].
  intros recurse subpath ancestors. unfold bakeBody.
  rewrite Hread, Hf, Hcache, Hnone. simpl.
  destruct subpath as [sp|]; [|done]. simpl.
  by destruct (String.eqb sp "").
Qed.

(** ** The order of the references *)

Lemma insertTarget_perm (t : ReferenceCache) (l : list ReferenceCache) :
  Permutation (insertTarget t l) (t :: l).
Proof.
  induction l as [|u l IH]; simpl; [done|].
  destruct (startOffset t <=? startOffset u); [done|].
  rewrite IH. apply perm_swap.
Qed.

Lemma insertTarget_sorted (t : ReferenceCache) (l : list ReferenceCache) :
  ascendingTargets l -> ascendingTargets (insertTarget t l).
Proof.
  unfold ascendingTargets. induction 1 as [|u l Hl IH Hu]; simpl.
  - repeat constructor.
  - destruct (startOffset t <=? startOffset u) eqn:Hle.
    + apply Z.leb_le in Hle. constructor; [by constructor|].
      constructor; [done|]. eapply Forall_impl; [exact Hu|]. simpl. lia.
    + apply Z.leb_gt in Hle. constructor; [exact IH|].
      rewrite (insertTarget_perm t l). constructor; [lia|exact Hu].
Qed.

Lemma insertTarget_filter (k : Z) (t : ReferenceCache) (l : list ReferenceCache) :
  filter (fun x => startOffset x = k) (insertTarget t l)
  = filter (fun x => startOffset x = k) (t :: l).
Proof.
  induction l as [|u l IH]; simpl; [done|].
  destruct (startOffset t <=? startOffset u) eqn:Hle; [done|].
  apply Z.leb_gt in Hle.
  rewrite (filter_cons _ u), IH, !filter_cons.
  destruct (decide (startOffset u = k)), (decide (startOffset t = k)); try done.
  lia.
Qed.

(** X11. The references are processed in a stable ascending order: the
    sorted list holds the same references as the list of links followed by
    embeds, by ascending start offset, and references with the same start
    offset keep the order they had. *)
Theorem X11_sortTargets_stable (l : list ReferenceCache) :
  Permutation (sortTargets l) l
  /\ ascendingTargets (sortTargets l)
  /\ forall k,
      filter (fun x => startOffset x = k) (sortTargets l)
      = filter (fun x => startOffset x = k) l.
Proof.
  unfold sortTargets. induction l as [|t l (IHp & IHs & IHf)]; simpl.
  - split_and!; [done|constructor|done].
  - split_and!.
    + by rewrite insertTarget_perm, IHp.
    + by apply insertTarget_sorted.
    + intros k. rewrite insertTarget_filter, !filter_cons, IHf. done.
Qed.

(** ** Failures *)




(** ** References that are all left alone *)

Lemma processTargets_all_skipped `{U : Util} (app : App)
    (settings : BakeSettings) (recurse : TFile -> string -> result string)
    (file : TFile) (newAncestors : gset TFile) (hiddenRegions : list Region)
    (targets : list ReferenceCache) (st : LoopState) :
  (forall linkpath linkedFile,
      getFirstLinkpathDest app linkpath (path file) = Some linkedFile ->
      extension linkedFile <> "md"
      /\ (convertFileLinks settings = false \/ getFullPath app = None)) ->
  processTargets app settings recurse file newAncestors hiddenRegions targets st
  = Ret st.
Proof.
  intros Hnone. induction targets as [|target more IH]; simpl; [done|].
  assert (processTarget app settings recurse file newAncestors hiddenRegions
            st target = Ret st) as ->; [|exact IH].
  rewrite processTarget_unfold.
  destruct (skippedAsHidden settings hiddenRegions target); [done|].
  destruct (getFirstLinkpathDest app _ (path file)) as [linkedFile|] eqn:Hres;
    [|done].
  destruct (Hnone _ _ Hres) as [Hext Hwhy]. simpl.
  apply String.eqb_neq in Hext. rewrite Hext. simpl.
  destruct Hwhy as [->| ->]; [done|].
  by destruct (convertFileLinks settings).
Qed.

(** X13. When every link path of a document either resolves to nothing
    or resolves to a file that is not markdown while file links cannot be
    converted ([convertFileLinks] off, or no [getFullPath]), [bake]
    returns the text after the hidden-region filter and the subpath
    narrowing with every reference still in it, however many references
    the cache lists. *)
Theorem X13_unresolved_document_is_left_alone `{U : Util} (app : App)
    (settings : BakeSettings) (file : TFile) (text0 : string)
    (cache : CachedMetadata) :
  cachedRead app file = Some text0 ->
  getFileCache app file = Some cache ->
  (forall linkpath linkedFile,
      getFirstLinkpathDest app linkpath (path file) = Some linkedFile ->
      extension linkedFile <> "md"
      /\ (convertFileLinks settings = false \/ getFullPath app = None)) ->
  exists hiddenRegions,
    (bakeHidden settings = false -> findHiddenRegions text0 = Some hiddenRegions)
    /\ forall recurse subpath ancestors,
        bakeBody app settings recurse file subpath ancestors
        = Ret (let filtered := if bakeHidden settings then text0
                               else removeHidden hiddenRegions text0 in
               match subpath with
               | Some sp =>
                   if String.eqb sp "" then filtered
                   else match resolveSubpath cache sp with
                        | Some r => extractSubpath filtered r cache
                        | None => filtered
                        end
               | None => filtered
               end).
Proof.
  intros Hread Hcache Hnone.
  destruct (hiddenFilter_total settings text0) as (regions & Hf & Hoff & _).
  exists regions. split; [exact Hoff|].
  intros recurse subpath ancestors. unfold bakeBody.
  rewrite Hread, Hf, Hcache. simpl.
  assert (forall t : string,
             match collectTargets settings cache with
             | [] => Ret t
             | _ :: _ =>
                 let* st := processTargets app settings
                              (fun linkedFile sp =>
                                 recurse linkedFile (Some sp) (ancestors ∪ {[file]}))
                              file (ancestors ∪ {[file]}) regions
                              (sortTargets (collectTargets settings cache))
                              (mkState t 0) in
                 Ret (text st)
             end = Ret t) as Hloop.
  { intros t. destruct (collectTargets settings cache) as [|r l] eqn:Hc; [done|].
    by rewrite processTargets_all_skipped. }
  rewrite Hloop. destruct subpath as [sp|]; [|done]. simpl.
  by destruct (String.eqb sp "").
Qed.

(** X14. A round of the loop never changes the text before the live
    start of its reference: what earlier rounds have written stays. *)
Theorem X14_earlier_text_is_kept `{U : Util} (app : App)
    (settings : BakeSettings) (recurse : TFile -> string -> result string)
    (file : TFile) (newAncestors : gset TFile) (hiddenRegions : list Region)
    (st st' : LoopState) (target : ReferenceCache) (k : Z) :
  k <= liveStart settings hiddenRegions st target ->
  liveStart settings hiddenRegions st target <= jsLength (text st) ->
  processTarget app settings recurse file newAncestors hiddenRegions st target
    = Ret st' ->
  substring (text st') 0 k = substring (text st) 0 k.
Proof.
  intros Hk Hlen Hstep.
  apply processTarget_shape in Hstep as [->|[replacement ->]]; [done|].
  apply chars_inj. unfold replaced, beforeOf. simpl.
  rewrite jsLength_chars in Hlen.
  rewrite !chars_substring_0, chars_append, chars_substring_0.
  rewrite take_app_le by (rewrite length_take; lia).
  rewrite take_take. f_equal. lia.
Qed.

(** ** The further theorems at work on the examples *)

Lemma X1_witness :
  skippedAsHidden allOn [] pictureRef = false
  /\ getFirstLinkpathDest pictureApp (fst (parseLinktext (link pictureRef)))
       (path (mdFile "Host")) = Some pictureFile
  /\ extension pictureFile <> "md"
  /\ convertFileLinks allOn = true
  /\ getFullPath pictureApp = Some (fun p => "/vault/" +:+ p)
  /\ processTarget pictureApp allOn (fun _ _ => OutOfFuel) (mdFile "Host")
       {[mdFile "Host"]} [] pictureState pictureRef
     = Ret (mkState "![](file:///vault/pic.png)" 14).
Proof.
  assert (extension pictureFile <> "md") as Hext by discriminate.
  split_and!; [reflexivity|reflexivity|exact Hext|reflexivity|reflexivity|].
  exact (X1_file_link_conversion pictureApp allOn (fun _ _ => OutOfFuel)
           (mdFile "Host") {[mdFile "Host"]} [] pictureState pictureRef
           pictureFile (fun p => "/vault/" +:+ p)
           eq_refl eq_refl Hext eq_refl eq_refl).
Defined.

Lemma X2_witness :
  skippedAsHidden allOn [] embedRef = false
  /\ getFirstLinkpathDest (vaultApp cycleVault)
       (fst (parseLinktext (link embedRef))) (path (mdFile "X"))
     = Some (mdFile "Y")
  /\ extension (mdFile "Y") = "md"
  /\ (mdFile "Y" ∉ ({[mdFile "X"]} : gset TFile))
  /\ isInline (listMatchOf allOn (beforeOf allOn [] embedState embedRef))
       (beforeOf allOn [] embedState embedRef)
       (afterOf allOn [] embedState embedRef) = false
  /\ processTarget (vaultApp cycleVault) allOn (fun _ _ => Ret "baked")
       (mdFile "X") {[mdFile "X"]} [] embedState embedRef
     = Ret (mkState "baked" (-1)).
Proof.
  assert (mdFile "Y" ∉ ({[mdFile "X"]} : gset TFile)) as Hnotin.
  { intros Hin. apply elem_of_singleton in Hin. discriminate Hin. }
  split_and!; [reflexivity|reflexivity|reflexivity|exact Hnotin|reflexivity|].
  exact (proj1 (X2_block_embed_is_baked (vaultApp cycleVault) allOn
                  (fun _ _ => Ret "baked") (mdFile "X") {[mdFile "X"]} []
                  embedState embedRef (mdFile "Y") "baked"
                  eq_refl eq_refl eq_refl Hnotin eq_refl eq_refl)).
Defined.

Lemma X3_witness :
  skippedAsHidden allOn [] goneRef = false
  /\ getFirstLinkpathDest brokenApp (fst (parseLinktext (link goneRef)))
       (path (mdFile "Host")) = Some (mdFile "Gone")
  /\ extension (mdFile "Gone") = "md"
  /\ (mdFile "Gone" ∉ ({[mdFile "Host"]} : gset TFile))
  /\ isInline (listMatchOf allOn (beforeOf allOn [] goneState goneRef))
       (beforeOf allOn [] goneState goneRef)
       (afterOf allOn [] goneState goneRef) = false
  /\ processTargets brokenApp allOn (fun f _ => Throw f) (mdFile "Host")
       {[mdFile "Host"]} [] [goneRef; goneRef] goneState
     = Throw (mdFile "Gone").
Proof.
  assert (mdFile "Gone" ∉ ({[mdFile "Host"]} : gset TFile)) as Hnotin.
  { intros Hin. apply elem_of_singleton in Hin. discriminate Hin. }
  split_and!; [reflexivity|reflexivity|reflexivity|exact Hnotin|reflexivity|].
  exact (X3_failure_below_aborts_the_loop brokenApp allOn (fun f _ => Throw f)
           (mdFile "Host") {[mdFile "Host"]} [] goneState goneRef [goneRef]
           (mdFile "Gone") (mdFile "Gone")
           eq_refl eq_refl eq_refl Hnotin eq_refl eq_refl).
Defined.

Lemma X4_witness :
  skippedAsHidden allOn [] selfRef = false
  /\ getFirstLinkpathDest (vaultApp selfVault)
       (fst (parseLinktext (link selfRef))) (path (mdFile "Self"))
     = Some (mdFile "Self")
  /\ extension (mdFile "Self") = "md"
  /\ processTarget (vaultApp selfVault) allOn (fun _ _ => OutOfFuel)
       (mdFile "Self") (∅ ∪ {[mdFile "Self"]}) [] selfState selfRef
     = Ret (mkState "me Self." (-4)).
Proof.
  split_and!; [reflexivity|reflexivity|reflexivity|].
  exact (X4_self_reference_is_text (vaultApp selfVault) allOn
           (fun _ _ => OutOfFuel) (mdFile "Self") ∅ [] selfState selfRef
           eq_refl eq_refl eq_refl).
Defined.

Lemma X5_witness :
  0 <= liveStart allOn [] twoLinksState firstLink
  /\ liveStart allOn [] twoLinksState firstLink
     <= liveEnd allOn [] twoLinksState firstLink
  /\ liveEnd allOn [] twoLinksState firstLink <= jsLength (text twoLinksState)
  /\ processTarget (vaultApp twoLinksVault) allOn (fun _ _ => OutOfFuel)
       (mdFile "Host") {[mdFile "Host"]} [] twoLinksState firstLink
     = Ret (mkState "a N b [[Note]] c" (-7))
  /\ jsLength (text (mkState "a N b [[Note]] c" (-7)))
     - posOffset (mkState "a N b [[Note]] c" (-7))
     = jsLength (text twoLinksState) - posOffset twoLinksState.
Proof.
  assert (0 <= liveStart allOn [] twoLinksState firstLink) as H0
    by (vm_compute; discriminate).
  assert (liveStart allOn [] twoLinksState firstLink
          <= liveEnd allOn [] twoLinksState firstLink) as H1
    by (vm_compute; discriminate).
  assert (liveEnd allOn [] twoLinksState firstLink
          <= jsLength (text twoLinksState)) as H2
    by (vm_compute; discriminate).
  split_and!; [exact H0|exact H1|exact H2|reflexivity|].
  exact (X5_offset_tracks_length (vaultApp twoLinksVault) allOn
           (fun _ _ => OutOfFuel) (mdFile "Host") {[mdFile "Host"]} []
           twoLinksState (mkState "a N b [[Note]] c" (-7)) firstLink
           H0 H1 H2 eq_refl).
Defined.

Lemma X6_witness :
  0 <= liveStart allOn [] twoLinksState firstLink
  /\ liveStart allOn [] twoLinksState firstLink
     <= liveEnd allOn [] twoLinksState firstLink
  /\ liveEnd allOn [] twoLinksState firstLink <= jsLength (text twoLinksState)
  /\ snd (adjust allOn [] firstLink) <= fst (adjust allOn [] secondLink)
  /\ fst (adjust allOn [] secondLink) <= snd (adjust allOn [] secondLink)
  /\ processTarget (vaultApp twoLinksVault) allOn (fun _ _ => OutOfFuel)
       (mdFile "Host") {[mdFile "Host"]} [] twoLinksState firstLink
     = Ret (mkState "a N b [[Note]] c" (-7))
  /\ substring "a N b [[Note]] c"
       (liveStart allOn [] (mkState "a N b [[Note]] c" (-7)) secondLink)
       (liveEnd allOn [] (mkState "a N b [[Note]] c" (-7)) secondLink)
     = substring (text twoLinksState)
         (liveStart allOn [] twoLinksState secondLink)
         (liveEnd allOn [] twoLinksState secondLink).
Proof.
  assert (0 <= liveStart allOn [] twoLinksState firstLink) as H0
    by (vm_compute; discriminate).
  assert (liveStart allOn [] twoLinksState firstLink
          <= liveEnd allOn [] twoLinksState firstLink) as H1
    by (vm_compute; discriminate).
  assert (liveEnd allOn [] twoLinksState firstLink
          <= jsLength (text twoLinksState)) as H2
    by (vm_compute; discriminate).
  assert (snd (adjust allOn [] firstLink) <= fst (adjust allOn [] secondLink))
    as H3 by (vm_compute; discriminate).
  assert (fst (adjust allOn [] secondLink) <= snd (adjust allOn [] secondLink))
    as H4 by (vm_compute; discriminate).
  split_and!; [exact H0|exact H1|exact H2|exact H3|exact H4|reflexivity|].
  exact (X6_later_reference_keeps_its_text (vaultApp twoLinksVault) allOn
           (fun _ _ => OutOfFuel) (mdFile "Host") {[mdFile "Host"]} []
           twoLinksState (mkState "a N b [[Note]] c" (-7)) firstLink secondLink
           H0 H1 H2 H3 H4 eq_refl).
Defined.

Lemma X7_witness :
  bakeHidden allOn = false
  /\ findHiddenRegions afterHiddenText = Some [mkRegion 0 23]
  /\ chainedRegions [mkRegion 0 23]
  /\ substring (removeHidden [mkRegion 0 23] afterHiddenText)
       (fst (adjust allOn [mkRegion 0 23] afterHiddenRef))
       (snd (adjust allOn [mkRegion 0 23] afterHiddenRef))
     = substring afterHiddenText (startOffset afterHiddenRef)
         (endOffset afterHiddenRef).
Proof.
  assert (chainedRegions [mkRegion 0 23]) as Hchain
    by (repeat constructor).
  split_and!; [reflexivity|reflexivity|exact Hchain|].
  apply (X7_remapped_span_holds_the_reference allOn [mkRegion 0 23]
           afterHiddenText afterHiddenRef eq_refl Hchain).
  - repeat constructor; simpl; lia.
  - simpl; lia.
  - simpl; lia.
Defined.

Lemma X8_witness :
  findHiddenRegions hiddenExample = Some [mkRegion 1 24]
  /\ Forall (fun r =>
               0 <= regionStart r
               /\ regionStart r + 22 <= regionEnd r
               /\ regionEnd r <= jsLength hiddenExample + 1)
       [mkRegion 1 24].
Proof.
  split; [reflexivity|].
  exact (X8_region_bounds hiddenExample [mkRegion 1 24] eq_refl).
Defined.

Lemma X9_witness :
  execFrom hiddenEndRE openExample 0 = None
  /\ findHiddenRegions openExample = Some []
  /\ hiddenFilter allOn openExample = Ret ([], openExample).
Proof.
  split; [reflexivity|].
  exact (X9_no_marker_no_change allOn openExample (or_intror eq_refl)).
Defined.

Lemma X10_witness :
  cachedRead (vaultApp hiddenVault) (mdFile "Host") = Some hiddenExample
  /\ getFileCache (vaultApp hiddenVault) (mdFile "Host")
     = Some (mkCache None None)
  /\ exists hiddenRegions,
      (bakeHidden allOn = false ->
       findHiddenRegions hiddenExample = Some hiddenRegions)
      /\ forall recurse subpath ancestors,
          bakeBody (vaultApp hiddenVault) allOn recurse (mdFile "Host")
            subpath ancestors
          = Ret (let filtered := if bakeHidden allOn then hiddenExample
                                 else removeHidden hiddenRegions hiddenExample in
                 match subpath with
                 | Some sp =>
                     if String.eqb sp "" then filtered
                     else match resolveSubpath (mkCache None None) sp with
                          | Some r => extractSubpath filtered r (mkCache None None)
                          | None => filtered
                          end
                 | None => filtered
                 end).
Proof.
  split_and!; [reflexivity|reflexivity|].
  exact (X10_bake_without_targets (vaultApp hiddenVault) allOn (mdFile "Host")
           hiddenExample (mkCache None None) eq_refl eq_refl
           (or_intror (or_introl eq_refl)) (or_intror (or_introl eq_refl))).
Defined.


Lemma X13_witness :
  cachedRead pictureApp (mdFile "Host") = Some "![[pic.png]]"
  /\ getFileCache pictureApp (mdFile "Host")
     = Some (mkCache None (Some [pictureRef]))
  /\ (forall linkpath linkedFile,
         getFirstLinkpathDest pictureApp linkpath (path (mdFile "Host"))
         = Some linkedFile ->
         extension linkedFile <> "md"
         /\ (convertFileLinks noConvert = false \/ getFullPath pictureApp = None))
  /\ forall recurse ancestors,
      bakeBody pictureApp noConvert recurse (mdFile "Host") None ancestors
      = Ret "![[pic.png]]".
Proof.
  assert (forall linkpath linkedFile,
             getFirstLinkpathDest pictureApp linkpath (path (mdFile "Host"))
             = Some linkedFile ->
             extension linkedFile <> "md"
             /\ (convertFileLinks noConvert = false
                 \/ getFullPath pictureApp = None)) as Hnone.
  { intros linkpath linkedFile. simpl.
    destruct (String.eqb linkpath "pic.png"); [|discriminate].
    intros [= <-]. split; [discriminate|left; reflexivity]. }
  split_and!; [reflexivity|reflexivity|exact Hnone|].
  destruct (X13_unresolved_document_is_left_alone pictureApp noConvert
              (mdFile "Host") "![[pic.png]]" (mkCache None (Some [pictureRef]))
              eq_refl eq_refl Hnone) as (regions & Hfind & Hbody).
  intros recurse ancestors. rewrite (Hbody recurse None ancestors).
  specialize (Hfind eq_refl). vm_compute in Hfind.
  injection Hfind as <-. reflexivity.
Defined.

Lemma X14_witness :
  2 <= liveStart allOn [] twoLinksState firstLink
  /\ liveStart allOn [] twoLinksState firstLink <= jsLength (text twoLinksState)
  /\ processTarget (vaultApp twoLinksVault) allOn (fun _ _ => OutOfFuel)
       (mdFile "Host") {[mdFile "Host"]} [] twoLinksState firstLink
     = Ret (mkState "a N b [[Note]] c" (-7))
  /\ substring "a N b [[Note]] c" 0 2 = substring (text twoLinksState) 0 2.
Proof.
  assert (2 <= liveStart allOn [] twoLinksState firstLink) as H0
    by (vm_compute; discriminate).
  assert (liveStart allOn [] twoLinksState firstLink
          <= jsLength (text twoLinksState)) as H1
    by (vm_compute; discriminate).
  split_and!; [exact H0|exact H1|reflexivity|].
  exact (X14_earlier_text_is_kept (vaultApp twoLinksVault) allOn
           (fun _ _ => OutOfFuel) (mdFile "Host") {[mdFile "Host"]} []
           twoLinksState (mkState "a N b [[Note]] c" (-7)) firstLink 2
           H0 H1 eq_refl).
Defined.
